(** * Bounded streaming file upload handler (remix-node, upload/fileUploadHandler.ts)

    A shallow embedding of [createFileUploadHandler], [uniqueFile],
    [defaultFilePathResolver] and the [NodeOnDiskFile] class, together with
    the properties stated about them.

    Modelling conventions.
    - JavaScript numbers that count bytes or carry offsets are integers [Z].
    - A [Uint8Array] chunk is a [list byte]; a string is a [string].
    - The disk is a finite map from absolute paths to file contents.
      Directories are not tracked: [mkdir] swallows its own failure in the
      source and opening a file for writing always succeeds here.
    - A write stream is an object with a queue.  [createWriteStream] only
      makes the object, [write] only puts a chunk in its queue and [close]
      only marks it as ending: the file is opened, the chunks reach the
      disk and the descriptor is closed later, one operation at a time, by
      [step_stream].  The handler never waits for any of this.  The streams
      live in a heap inside the world ([writers]).
    - [background] carries out pending operations of the streams in a given
      order and [settle] carries out all of them; they stand for what Node
      does between and after the calls of the program.  Within one run of
      the handler the only point at which the disk is looked at after the
      stream was made is [rm]; how far the stream has come by then is not
      fixed by the program and is given by the host ([head_start],
      [catch_up]).
    - [stat] and the opening of a file for reading see the disk as it is
      when they are called.  [rm] looks for the file and removes it in two
      steps, and the stream may come further in between.
    - Every filesystem call made by the program is appended to a trace, so
      that statements about which calls happen (and how often) can be made.
      What the write streams do in the background is not part of the trace.
    - Node built-ins whose result is not computed by this file (the [path]
      helpers, the clock, the random source, [Buffer.toString]) are fields
      of a [host] record; a concrete [sample_host] is used for evaluation.
    - A stream-slice transform is a stateful stream object.  It lives in a
      heap inside the world and a [NodeOnDiskFile] refers to it by index,
      because the same object is piped into by every read of that file. *)

From Stdlib Require Import ZArith Lia.
From Stdlib.Strings Require Import Byte Ascii.
From stdpp Require Import base strings gmap list pretty.

Local Open Scope Z_scope.

(** ** Errors *)

(** [MeterError] is the error of @remix-run/server-runtime thrown by the
    handler.  [ENOENT] is the error of a read stream on a missing file.
    [WriteAfterEnd] stands for a read that delivers no data because its
    source was piped into a transform that had already ended: depending on
    the version of Node the promise rejects with the stream's error or never
    settles; in neither case does it resolve with bytes.  [Unhandled e] is
    an error event [e] of a stream on which nobody listens: Node raises it
    as an uncaught exception, and a promise waiting for that stream never
    settles. *)
Inductive error :=
  | MeterError (field : string) (maxBytes : Z)
  | ENOENT (path : string)
  | WriteAfterEnd
  | Unhandled (e : error).

(** [Ok a]: the promise resolves with [a].  [Err e]: it does not; [e] says
    why. *)
Inductive result (A : Type) :=
  | Ok (a : A)
  | Err (e : error).
Arguments Ok {A} a.
Arguments Err {A} e.

Definition result_map {A B} (f : A → B) (r : result A) : result B :=
  match r with
  | Ok a => Ok (f a)
  | Err e => Err e
  end.

(** ** The world: disk, stream objects, and the trace of filesystem calls *)

Definition chunk := list byte.

Inductive event :=
  | EvStat (path : string)
  | EvMkdir (path : string)
  | EvOpenWrite (path : string)
  | EvWrite (path : string) (c : chunk)
  | EvClose (path : string)
  | EvRm (path : string)
  | EvOpenRead (path : string).

(** The transform made by [streamSlice.slice(start, end)], with the fields
    its constructor sets: [_start = start || 0], [_end = end || Infinity]
    ([None] is [Infinity]), [_offset = 0], [_emitUp = _emitDown = false].
    [sl_ended] records that a source piped into it has finished, which ends
    the transform. *)
Record SliceStream := MkSliceStream {
  sl_start : Z;
  sl_end : option Z;
  sl_offset : Z;
  sl_emitUp : bool;
  sl_emitDown : bool;
  sl_ended : bool;
}.

(** The file descriptor of a write stream: not opened yet, open with the
    position of the next write, or closed.  [linked] is false once the file
    the descriptor was opened on has been removed from its directory: the
    writes then go to a file that no path leads to. *)
Inductive fd_state :=
  | Unopened
  | Opened (pos : nat) (linked : bool)
  | Closed.

(** An [fs.WriteStream]: its path, its descriptor, the chunks handed to
    [write] that have not reached the file yet, and whether [close] has
    been called. *)
Record WriteStream := MkWriteStream {
  ws_path : string;
  ws_fd : fd_state;
  ws_queue : list chunk;
  ws_ending : bool;
}.

Record world := World {
  files : gmap string (list byte);
  slicers : list SliceStream;
  writers : list WriteStream;
  trace : list event;
  ticks : nat;
  draws : nat;
}.

Definition set_files (m : gmap string (list byte)) (w : world) : world :=
  World m (slicers w) (writers w) (trace w) (ticks w) (draws w).
Definition set_slicers (s : list SliceStream) (w : world) : world :=
  World (files w) s (writers w) (trace w) (ticks w) (draws w).
Definition set_writers (s : list WriteStream) (w : world) : world :=
  World (files w) (slicers w) s (trace w) (ticks w) (draws w).
Definition log (e : event) (w : world) : world :=
  World (files w) (slicers w) (writers w) (trace w ++ [e]) (ticks w) (draws w).

(** ** Filesystem primitives ([fs], [fs/promises]) *)

(** [stat(p).then(() => true).catch(() => false)] *)
Definition stat (p : string) (w : world) : bool * world :=
  (bool_decide (is_Some (files w !! p)), log (EvStat p) w).

(** [mkdir(p, { recursive: true }).catch(() => {})] *)
Definition mkdir (p : string) (w : world) : world := log (EvMkdir p) w.

(** [createWriteStream(p)]: a new stream object; nothing is opened yet. *)
Definition createWriteStream (p : string) (w : world) : nat * world :=
  (length (writers w),
   log (EvOpenWrite p) (set_writers (writers w ++ [MkWriteStream p Unopened [] false]) w)).

(** [writeFileStream.write(chunk)]: the chunk is queued. *)
Definition ws_write (ws : nat) (c : chunk) (w : world) : world :=
  match writers w !! ws with
  | Some s =>
    log (EvWrite (ws_path s) c)
      (set_writers
         (<[ws := MkWriteStream (ws_path s) (ws_fd s) (ws_queue s ++ [c]) (ws_ending s)]>
            (writers w)) w)
  | None => w
  end.

(** [writeFileStream.close()]: the stream ends once its queue is written;
    the call returns at once. *)
Definition ws_close (ws : nat) (w : world) : world :=
  match writers w !! ws with
  | Some s =>
    log (EvClose (ws_path s))
      (set_writers
         (<[ws := MkWriteStream (ws_path s) (ws_fd s) (ws_queue s) true]> (writers w)) w)
  | None => w
  end.

(** The file after [c] has been written at offset [pos]; a gap before
    [pos] reads as zeros. *)
Definition write_at (pos : nat) (c : chunk) (content : list byte) : list byte :=
  take pos (content ++ replicate (pos - length content) x00)
  ++ c ++ drop (pos + length c) content.

(** The next pending operation of a write stream, carried out by Node in
    the background, and the disk afterwards: open the file with flag "w"
    (create it, or truncate it), write the chunk at the head of the queue
    at the position of the descriptor, or, when the queue is empty and
    [close] has been called, close the descriptor.  A stream with nothing
    pending is left alone. *)
Definition run_op (s : WriteStream) (disk : gmap string (list byte))
  : WriteStream * gmap string (list byte) :=
  match ws_fd s with
  | Unopened =>
    (MkWriteStream (ws_path s) (Opened 0 true) (ws_queue s) (ws_ending s),
     <[ws_path s := []]> disk)
  | Opened pos linked =>
    match ws_queue s with
    | c :: rest =>
      (MkWriteStream (ws_path s) (Opened (pos + length c) linked) rest (ws_ending s),
       if linked then alter (write_at pos c) (ws_path s) disk else disk)
    | [] =>
      if ws_ending s
      then (MkWriteStream (ws_path s) Closed [] true, disk)
      else (s, disk)
    end
  | Closed => (s, disk)
  end.

(** The next pending operation of the write stream number [ws]. *)
Definition step_stream (ws : nat) (w : world) : world :=
  match writers w !! ws with
  | None => w
  | Some s =>
    let '(s, disk) := run_op s (files w) in
    set_writers (<[ws := s]> (writers w)) (set_files disk w)
  end.

(** Pending operations carried out in the order [sched], each entry naming
    the stream whose next operation runs. *)
Definition background (sched : list nat) (w : world) : world :=
  foldl (λ w ws, step_stream ws w) w sched.

(** The number of operations a stream still has to carry out. *)
Definition pending_ops (s : WriteStream) : nat :=
  match ws_fd s with
  | Unopened => S (length (ws_queue s)) + (if ws_ending s then 1 else 0)
  | Opened _ _ => length (ws_queue s) + (if ws_ending s then 1 else 0)
  | Closed => 0
  end.

(** All pending operations carried out, stream after stream. *)
Definition settle (w : world) : world :=
  foldl
    (λ w ws, background (replicate (from_option pending_ops 0%nat (writers w !! ws)) ws) w)
    w (seq 0 (length (writers w))).

(** After [rm] the descriptors open on the removed file stay open, but
    lead to no path any more. *)
Definition unlinked (p : string) (s : WriteStream) : WriteStream :=
  match ws_fd s with
  | Opened pos true =>
    if bool_decide (ws_path s = p)
    then MkWriteStream (ws_path s) (Opened pos false) (ws_queue s) (ws_ending s)
    else s
  | _ => s
  end.

(** [unlink(p)]: the file leaves its directory. *)
Definition unlink (p : string) (w : world) : world :=
  set_writers (unlinked p <$> writers w) (set_files (delete p (files w)) w).

(** [rm(p).catch(() => {})]: [rm] first looks whether there is a file
    ([lstat]); if there is none it fails with ENOENT and the failure is
    swallowed.  If there is one, [rm] removes it in a second step, and
    [meanwhile] is what Node has done in between. *)
Definition rm (p : string) (meanwhile : world → world) (w : world) : world :=
  log (EvRm p)
    match files w !! p with
    | Some _ => unlink p (meanwhile w)
    | None => w
    end.

(** [createReadStream(p)]: the bytes the stream will deliver, or the error
    it will emit when the file is missing. *)
Definition createReadStream (p : string) (w : world) : result (list byte) * world :=
  (match files w !! p with
   | Some content => Ok content
   | None => Err (ENOENT p)
   end, log (EvOpenRead p) w).

(** A read stream delivers a file in chunks of [highWaterMark] bytes
    (64 KiB for [fs.ReadStream]). *)
Definition highWaterMark : nat := Pos.to_nat 65536.

Fixpoint chunks_of (fuel n : nat) (l : list byte) : list chunk :=
  match fuel with
  | O => []
  | S fuel =>
    match l with
    | [] => []
    | _ :: _ => take n l :: chunks_of fuel n (drop n l)
    end
  end.

Definition read_chunks (content : list byte) : list chunk :=
  chunks_of (length content) highWaterMark content.

(** ** stream-slice

    The package is not part of the repository; the transform is written
    after the source of the npm package (its index.js).  Like every Node
    transform it is a stream object of its own, with a life cycle: once
    the source piped into it has ended, it has ended too. *)

(** [buf.slice(start, end)] of a [Buffer]: negative indices count from the
    end, and both are clamped to the buffer. *)
Definition buffer_slice (start end_ : Z) (b : list byte) : list byte :=
  let len := Z.of_nat (length b) in
  let clamp i := if i <? 0 then Z.max (len + i) 0 else Z.min i len in
  take (Z.to_nat (clamp end_ - clamp start)) (drop (Z.to_nat (clamp start)) b).

(** [streamSlice.slice(start, end)] allocates a new transform. *)
Definition streamSlice_slice (start end_ : Z) (w : world) : nat * world :=
  (length (slicers w),
   set_slicers
     (slicers w
      ++ [MkSliceStream start (if end_ =? 0 then None else Some end_) 0 false false false])
     w).

(** [SliceStream.prototype._transform(chunk, encoding, done)]: the bytes
    pushed for this chunk, and the transform afterwards. *)
Definition _transform (s : SliceStream) (chunk : list byte) : list byte * SliceStream :=
  let len := Z.of_nat (length chunk) in
  let offset := sl_offset s + len in
  if negb (sl_emitUp s) && (sl_start s <=? offset) then
    let start := len - (offset - sl_start s) in
    match sl_end s with
    | Some e =>
      if e <? offset
      then (buffer_slice start (len - (offset - e)) chunk,
            MkSliceStream (sl_start s) (sl_end s) offset true true (sl_ended s))
      else (buffer_slice start len chunk,
            MkSliceStream (sl_start s) (sl_end s) offset true (sl_emitDown s) (sl_ended s))
    | None =>
      (buffer_slice start len chunk,
       MkSliceStream (sl_start s) (sl_end s) offset true (sl_emitDown s) (sl_ended s))
    end
  else if sl_emitUp s && negb (sl_emitDown s) then
    match sl_end s with
    | Some e =>
      if e <=? offset
      then (buffer_slice 0 (len - (offset - e)) chunk,
            MkSliceStream (sl_start s) (sl_end s) offset (sl_emitUp s) true (sl_ended s))
      else (chunk,
            MkSliceStream (sl_start s) (sl_end s) offset (sl_emitUp s) (sl_emitDown s)
              (sl_ended s))
    | None =>
      (chunk,
       MkSliceStream (sl_start s) (sl_end s) offset (sl_emitUp s) (sl_emitDown s)
         (sl_ended s))
    end
  else
    ([],
     MkSliceStream (sl_start s) (sl_end s) offset (sl_emitUp s) (sl_emitDown s) (sl_ended s)).

(** The chunks of a source written into the transform one after the
    other: all the bytes pushed, and the transform afterwards. *)
Fixpoint feed (s : SliceStream) (cs : list chunk) : list byte * SliceStream :=
  match cs with
  | [] => ([], s)
  | c :: cs =>
    let '(pushed, s) := _transform s c in
    let '(rest, s) := feed s cs in
    (pushed ++ rest, s)
  end.

(** [source.pipe(slicer)], read to the end: the chunks of the source are
    written into the transform and the transform is ended when the source
    ends.  Writing into a transform that has already ended delivers
    nothing; the read fails.  [pipe] does not pass on an error of the
    source: nothing listens for it, and the transform never ends. *)
Definition pipe (source : result (list byte)) (ref : nat) (w : world)
  : result (list byte) * world :=
  match source with
  | Err e => (Err (Unhandled e), w)
  | Ok bytes =>
    match slicers w !! ref with
    | Some s =>
      if sl_ended s then (Err WriteAfterEnd, w)
      else
        let '(out, s) := feed s (read_chunks bytes) in
        (Ok out,
         set_slicers
           (<[ref := MkSliceStream (sl_start s) (sl_end s) (sl_offset s) (sl_emitUp s)
                       (sl_emitDown s) true]> (slicers w)) w)
    | None => (Err WriteAfterEnd, w)
    end
  end.

(** ** The host platform *)

Record host := Host {
  (** [path.resolve(...segments)] *)
  resolvePath : list string → string;
  (** [path.extname], [path.dirname], [path.basename] *)
  extname : string → string;
  dirname : string → string;
  basename : string → string;
  (** [os.tmpdir()] *)
  tmpdir : string;
  (** the k-th reading of [new Date().getTime()] *)
  clock : nat → Z;
  (** the k-th value of [randomBytes(4).readUInt32LE(0)] *)
  entropy : nat → Z;
  (** [Buffer.prototype.toString()] in the default encoding *)
  decode : list byte → string;
  (** how many of its pending operations the write stream number k has
      carried out when the [rm] that the handler awaits after [close()]
      looks for the file; 0 when the stream has not opened its file by
      then *)
  head_start : nat → nat;
  (** how many more it carries out before [rm] removes the file it has
      found *)
  catch_up : nat → nat;
}.

Definition getTime (h : host) (w : world) : Z * world :=
  (clock h (ticks w),
   World (files w) (slicers w) (writers w) (trace w) (S (ticks w)) (draws w)).

Definition randomUInt32 (h : host) (w : world) : Z * world :=
  (entropy h (draws w),
   World (files w) (slicers w) (writers w) (trace w) (ticks w) (S (draws w))).

(** JavaScript truthiness of a [string | undefined]. *)
Definition truthy (s : option string) : bool :=
  match s with
  | Some s => negb (String.eqb s "")
  | None => false
  end.

(** [s.slice(0, -n)] for [n > 0]. *)
Definition slice_off_end (s : string) (n : nat) : string :=
  String.substring 0 (String.length s - n) s.

(** ** [NodeOnDiskFile] *)

Record NodeOnDiskFile := MkNodeOnDiskFile {
  filepath : string;
  size : Z;
  type : string;
  slicer : option nat;
  name : string;
  lastModified : Z;
  webkitRelativePath : string;
}.

(** ** Options and arguments of the handler *)

Record FileUploadHandlerFilterArgs := FilterArgs {
  fa_filename : string;
  fa_contentType : string;
  fa_name : string;
}.

Record FileUploadHandlerPathResolverArgs := ResolverArgs {
  ra_filename : string;
  ra_contentType : string;
  ra_name : string;
}.

Definition FileUploadHandlerPathResolver :=
  FileUploadHandlerPathResolverArgs → option string.

(** A [string | FileUploadHandlerPathResolver]. *)
Inductive path_option :=
  | PathString (s : string)
  | PathResolver (f : FileUploadHandlerPathResolver).

Record FileUploadHandlerOptions := Options {
  avoidFileConflicts : option bool;
  directory : option path_option;
  file : option path_option;
  maxFileSize : option Z;
  filter : option (FileUploadHandlerFilterArgs → bool);
}.

(** One part of the multipart body, as handed to an [UploadHandler]. *)
Record UploadHandlerPart := Part {
  part_name : string;
  part_filename : string;
  part_contentType : string;
  part_data : list chunk;
}.

(** How a run of the handler ends: it resolves, it rejects, or the probe
    loop of [uniqueFile] has not finished within the given fuel. *)
Inductive outcome (A : Type) :=
  | Resolved (a : A) (w : world)
  | Rejected (e : error) (w : world)
  | OutOfFuel.
Arguments Resolved {A} a w.
Arguments Rejected {A} e w.
Arguments OutOfFuel {A}.

(** ** The class and the handler *)

Section Upload.
Context (h : host).

(** The constructor: [this.name = basename(filepath)]. *)
Definition new_NodeOnDiskFile (filepath : string) (size : Z) (type : string)
    (slicer : option nat) : NodeOnDiskFile :=
  MkNodeOnDiskFile filepath size type slicer (basename h filepath) 0 "".

(** [slice(start?, end?, contentType?)] *)
Definition slice (this : NodeOnDiskFile) (start end_ : option Z)
    (contentType : option string) (w : world) : NodeOnDiskFile * world :=
  let start := match start with Some s => s | None => 0 end in
  let end_ := match end_ with Some e => e | None => size this end in
  let '(ref, w) := streamSlice_slice start end_ w in
  (new_NodeOnDiskFile (filepath this) (end_ - start) (type this) (Some ref), w).

(** The first three lines shared by [arrayBuffer], [stream] and [text]:
    open the backing file, and pipe it into [this.slicer] when there is
    one. *)
Definition open_stream (this : NodeOnDiskFile) (w : world)
  : result (list byte) * world :=
  let '(stream, w) := createReadStream (filepath this) w in
  match slicer this with
  | Some ref => pipe stream ref w
  | None => (stream, w)
  end.

(** [arrayBuffer()]: collects the chunks and resolves with their
    concatenation, or rejects with the stream's error. *)
Definition arrayBuffer (this : NodeOnDiskFile) (w : world)
  : result (list byte) * world :=
  open_stream this w.

(** Modelled from the spec: [readableStreamFromStream] of ../stream, which
    is not among the sources, wraps a Node stream as a web stream carrying
    the same bytes. *)
Definition readableStreamFromStream (s : result (list byte)) : result (list byte) := s.

(** Modelled from the spec: [readableStreamToString] of ../stream, which
    is not among the sources, reads the stream to its end and decodes the
    bytes with the default text encoding. *)
Definition readableStreamToString (s : result (list byte)) : result string :=
  result_map (decode h) s.

(** [stream()] *)
Definition stream (this : NodeOnDiskFile) (w : world)
  : result (list byte) * world :=
  let '(s, w) := open_stream this w in
  (readableStreamFromStream s, w).

(** [text()] *)
Definition text (this : NodeOnDiskFile) (w : world) : result string * world :=
  let '(s, w) := open_stream this w in
  (readableStreamToString (readableStreamFromStream s), w).

(** [get [Symbol.toStringTag]()] *)
Definition toStringTag (this : NodeOnDiskFile) : string := "File".

(** [defaultFilePathResolver] *)
Definition defaultFilePathResolver (args : FileUploadHandlerPathResolverArgs)
    (w : world) : option string * world :=
  let ext := if String.eqb (ra_filename args) "" then "" else extname h (ra_filename args) in
  let '(r, w) := randomUInt32 h w in
  (Some ("upload_" +:+ pretty r +:+ ext), w).

(** The [for] loop of [uniqueFile].  The counter [i] of the source is only
    incremented, never read, and is left out. *)
Fixpoint uniqueFile_loop (fuel : nat) (filepath ext uniqueFilepath : string)
    (w : world) : option (string * world) :=
  match fuel with
  | O => None
  | S fuel =>
    let '(found, w) := stat uniqueFilepath w in
    if found then
      let '(now, w) := getTime h w in
      let uniqueFilepath :=
        (if String.eqb ext "" then filepath
         else slice_off_end filepath (String.length ext))
        +:+ "-" +:+ pretty now +:+ ext in
      uniqueFile_loop fuel filepath ext uniqueFilepath w
    else Some (uniqueFilepath, w)
  end.

(** [uniqueFile(filepath)] *)
Definition uniqueFile (fuel : nat) (filepath : string) (w : world)
  : option (string * world) :=
  let ext := extname h filepath in
  uniqueFile_loop fuel filepath ext filepath w.


(** ** The copy loop *)

(** The locals [size] and [deleteFile] of the handler. *)
Record locals := Locals {
  l_size : Z;
  l_deleteFile : bool;
}.

(** [for await (let chunk of data) { ... }]: returns the locals, the
    exception that left the loop (if any) and the world. *)
Fixpoint copy_chunks (name : string) (maxFileSize : Z) (writeFileStream : nat)
    (data : list chunk) (l : locals) (w : world)
  : locals * option error * world :=
  match data with
  | [] => (l, None, w)
  | chunk :: data =>
    let l := Locals (l_size l + Z.of_nat (length chunk)) (l_deleteFile l) in
    if maxFileSize <? l_size l then
      let l := Locals (l_size l) true in
      (l, Some (MeterError name maxFileSize), w)
    else
      let w := ws_write writeFileStream chunk w in
      copy_chunks name maxFileSize writeFileStream data l w
  end.

(** ** [createFileUploadHandler] *)

Definition UploadHandler :=
  nat → UploadHandlerPart → world → outcome (option NodeOnDiskFile).

(** The options after the defaults of the parameter list have been filled
    in.  [r_file = None] stands for [defaultFilePathResolver], the one
    resolver that draws a random number. *)
Record resolved_options := Resolved_options {
  r_directory : path_option;
  r_avoidFileConflicts : bool;
  r_file : option path_option;
  r_filter : option (FileUploadHandlerFilterArgs → bool);
  r_maxFileSize : Z;
}.

Definition with_defaults (opts : FileUploadHandlerOptions) : resolved_options :=
  Resolved_options
    (match directory opts with Some d => d | None => PathString (tmpdir h) end)
    (match avoidFileConflicts opts with Some b => b | None => true end)
    (file opts)
    (filter opts)
    (match maxFileSize opts with Some m => m | None => 3000000 end).

(** Lines 95-120 of the handler: the filter, the directory, the file name
    and the conflict check.  The result is the path to write to, or
    [None] when the handler returns [undefined]. *)
Definition choose_filepath (o : resolved_options) (fuel : nat)
    (part : UploadHandlerPart) (w : world) : option (option string * world) :=
  let name := part_name part in
  let filename := part_filename part in
  let contentType := part_contentType part in
  if match r_filter o with
     | Some filter => negb (filter (FilterArgs filename contentType name))
     | None => false
     end
  then Some (None, w)
  else
    let dir :=
      match r_directory o with
      | PathString directory => Some directory
      | PathResolver directory => directory (ResolverArgs filename contentType name)
      end in
    if negb (truthy dir) then Some (None, w)
    else
      let filedir := resolvePath h [default "" dir] in
      let '(path, w) :=
        match r_file o with
        | Some (PathString file) => (Some file, w)
        | Some (PathResolver file) => (file (ResolverArgs filename contentType name), w)
        | None => defaultFilePathResolver (ResolverArgs filename contentType name) w
        end in
      if negb (truthy path) then Some (None, w)
      else
        let filepath := resolvePath h [filedir; default "" path] in
        if r_avoidFileConflicts o then
          match uniqueFile fuel filepath w with
          | Some (filepath, w) => Some (Some filepath, w)
          | None => None
          end
        else Some (Some filepath, w).

(** Lines 122-143 of the handler: create the directory, make the write
    stream, queue the chunks on it under the size limit, call [close] in
    the [finally] block, await [rm] when the limit was exceeded, and build
    the result.  Nothing here waits for the stream: [rm] finds the disk as
    far as the stream has come by then ([head_start], [catch_up]), and the
    handler returns or throws while operations of the stream are still
    pending. *)
Definition store_at (o : resolved_options) (part : UploadHandlerPart)
    (filepath : string) (w : world) : outcome (option NodeOnDiskFile) :=
  let w := mkdir (dirname h filepath) w in
  let '(writeFileStream, w) := createWriteStream filepath w in
  let '(l, thrown, w) :=
    copy_chunks (part_name part) (r_maxFileSize o) writeFileStream
      (part_data part) (Locals 0 false) w in
  let w := ws_close writeFileStream w in
  let w :=
    if l_deleteFile l
    then rm filepath
           (background (replicate (catch_up h writeFileStream) writeFileStream))
           (background (replicate (head_start h writeFileStream) writeFileStream) w)
    else w in
  match thrown with
  | Some e => Rejected e w
  | None =>
    Resolved (Some (new_NodeOnDiskFile filepath (l_size l) (part_contentType part) None)) w
  end.

Definition createFileUploadHandler (opts : FileUploadHandlerOptions) : UploadHandler :=
  let o := with_defaults opts in
  λ fuel part w,
    match choose_filepath o fuel part w with
    | None => OutOfFuel
    | Some (None, w) => Resolved None w
    | Some (Some filepath, w) => store_at o part filepath w
    end.

End Upload.

(** ** A concrete host: POSIX paths

    [path.posix] of Node, written after its loops over the characters of
    the path from the right, a counter as clock and a fixed sequence as
    random source.  It is used to run the model on concrete inputs. *)

Module Posix.

Definition is_slash (c : Ascii.ascii) : bool := Ascii.eqb c "/"%char.
Definition is_dot (c : Ascii.ascii) : bool := Ascii.eqb c "."%char.

Definition str_slice (start end_ : nat) (s : string) : string :=
  String.substring start (end_ - start) s.

(** State of the scan in [path.extname]; [None] stands for [-1]. *)
Record ext_scan := ExtScan {
  startDot : option nat;
  startPart : nat;
  ext_end : option nat;
  ext_matchedSlash : bool;
  preDotState : Z;
}.

(** The body of the [for] loop of [extname], on the characters from the
    right; the index of the head of [rev_chars] is the length of its
    tail. *)
Fixpoint extname_scan (rev_chars : list Ascii.ascii) (st : ext_scan) : ext_scan :=
  match rev_chars with
  | [] => st
  | code :: rest =>
    let i := length rest in
    if is_slash code then
      if negb (ext_matchedSlash st)
      then ExtScan (startDot st) (S i) (ext_end st) (ext_matchedSlash st) (preDotState st)
      else extname_scan rest st
    else
      let st :=
        match ext_end st with
        | None => ExtScan (startDot st) (startPart st) (Some (S i)) false (preDotState st)
        | Some _ => st
        end in
      let st :=
        if is_dot code then
          match startDot st with
          | None => ExtScan (Some i) (startPart st) (ext_end st) (ext_matchedSlash st) (preDotState st)
          | Some _ => ExtScan (startDot st) (startPart st) (ext_end st) (ext_matchedSlash st) 1
          end
        else
          match startDot st with
          | Some _ => ExtScan (startDot st) (startPart st) (ext_end st) (ext_matchedSlash st) (-1)
          | None => st
          end in
      extname_scan rest st
  end.

Definition extname (path : string) : string :=
  let st := extname_scan (reverse (String.list_ascii_of_string path))
              (ExtScan None 0 None true 0) in
  match startDot st, ext_end st with
  | Some sd, Some e =>
    if (preDotState st =? 0)
       || ((preDotState st =? 1) && (sd =? e - 1)%nat && (sd =? startPart st + 1)%nat)
    then ""
    else str_slice sd e path
  | _, _ => ""
  end.

(** State of the scan in [path.basename] without a suffix. *)
Fixpoint basename_scan (rev_chars : list Ascii.ascii) (end_ : option nat) (matchedSlash : bool)
  : nat * option nat :=
  match rev_chars with
  | [] => (0%nat, end_)
  | code :: rest =>
    let i := length rest in
    if is_slash code then
      if negb matchedSlash then (S i, end_)
      else basename_scan rest end_ matchedSlash
    else
      match end_ with
      | None => basename_scan rest (Some (S i)) false
      | Some _ => basename_scan rest end_ matchedSlash
      end
  end.

Definition basename (path : string) : string :=
  match basename_scan (reverse (String.list_ascii_of_string path)) None true with
  | (start, Some e) => str_slice start e path
  | (_, None) => ""
  end.

(** The scan of [path.dirname] stops before index 0. *)
Fixpoint dirname_scan (rev_chars : list Ascii.ascii) (matchedSlash : bool) : option nat :=
  match rev_chars with
  | [] => None
  | code :: rest =>
    match length rest with
    | O => None
    | S _ as i =>
      if is_slash code then
        if negb matchedSlash then Some i
        else dirname_scan rest matchedSlash
      else dirname_scan rest false
    end
  end.

Definition dirname (path : string) : string :=
  match String.list_ascii_of_string path with
  | [] => "."
  | first :: _ =>
    let hasRoot := is_slash first in
    match dirname_scan (reverse (String.list_ascii_of_string path)) true with
    | None => if hasRoot then "/" else "."
    | Some e => if hasRoot && (e =? 1)%nat then "//" else str_slice 0 e path
    end
  end.

(** Splitting at slashes, for [normalizeString]. *)
Fixpoint split_slash (cur : list Ascii.ascii) (chars : list Ascii.ascii) : list string :=
  match chars with
  | [] => [String.string_of_list_ascii (reverse cur)]
  | c :: rest =>
    if is_slash c then String.string_of_list_ascii (reverse cur) :: split_slash [] rest
    else split_slash (c :: cur) rest
  end.

(** Segments of an absolute path with ".", ".." and empty segments
    resolved; the stack holds the segments seen so far, last first. *)
Fixpoint normalize_segments (stack : list string) (segs : list string) : list string :=
  match segs with
  | [] => reverse stack
  | seg :: rest =>
    if String.eqb seg "" || String.eqb seg "." then normalize_segments stack rest
    else if String.eqb seg ".." then normalize_segments (tail stack) rest
    else normalize_segments (seg :: stack) rest
  end.

Fixpoint join_slash (segs : list string) : string :=
  match segs with
  | [] => ""
  | [seg] => seg
  | seg :: rest => seg +:+ "/" +:+ join_slash rest
  end.

Definition starts_with_slash (s : string) : bool :=
  match s with
  | String c _ => is_slash c
  | EmptyString => false
  end.

(** [path.resolve] with an absolute working directory [cwd]: the
    arguments are prefixed from the right until one is absolute. *)
Fixpoint resolve_prefix (rev_args : list string) (cwd : string) : string :=
  match rev_args with
  | [] => cwd +:+ "/"
  | path :: rest =>
    if String.eqb path "" then resolve_prefix rest cwd
    else if starts_with_slash path then path +:+ "/"
    else resolve_prefix rest cwd +:+ path +:+ "/"
  end.

Definition resolve (cwd : string) (args : list string) : string :=
  "/" +:+ join_slash
    (normalize_segments []
       (split_slash [] (String.list_ascii_of_string (resolve_prefix (reverse args) cwd)))).

End Posix.

(** Working directory /srv/app, a clock that ticks once per reading, one
    character per byte as text decoding, and an upload that arrives from
    memory: the handler reaches [rm] before Node has opened the file of the
    write stream, and Node opens it while [rm] is at work. *)
Definition sample_host : host :=
  Host (Posix.resolve "/srv/app") Posix.extname Posix.dirname Posix.basename
       "/tmp"
       (λ k, 1700000000000 + Z.of_nat k)
       (λ k, 305419896 + 7 * Z.of_nat k)
       (λ bytes, String.string_of_list_byte bytes)
       (λ _, 0%nat)
       (λ _, 1%nat).

Definition empty_world : world := World ∅ [] [] [] 0 0.

(** *** Sample inputs *)

(** A file of four bytes as the handler would have stored it, and a world
    holding it. *)
Definition four_bytes : list byte := [x0a; x14; x1e; x28].
Definition stored_four : NodeOnDiskFile :=
  new_NodeOnDiskFile sample_host "/srv/app/uploads/a.bin" 4 "application/octet-stream" None.
Definition world_four : world :=
  set_files {["/srv/app/uploads/a.bin" := four_bytes]} empty_world.

(** A world in which ./uploads/pic.png is taken. *)
Definition world_pic : world :=
  set_files {["/srv/app/uploads/pic.png" := [xff]]} empty_world.

(** The field "avatar": pic.png, twelve bytes in three chunks. *)
Definition avatar : UploadHandlerPart :=
  Part "avatar" "pic.png" "image/png"
    [[x01; x02; x03; x04; x05]; [x06; x07; x08; x09; x0a]; [x0b; x0c]].

(** Uploads go to ./uploads/pic.png, with a limit of [limit] bytes. *)
Definition uploads_options (limit : Z) : FileUploadHandlerOptions :=
  Options None (Some (PathString "uploads")) (Some (PathString "pic.png"))
    (Some limit) None.

(** The same destination, named by a [file] resolver. *)
Definition pic_options (limit : Z) : FileUploadHandlerOptions :=
  Options None (Some (PathString "uploads")) (Some (PathResolver (λ _, Some "pic.png")))
    (Some limit) None.

(** Options whose filter rejects every part. *)
Definition reject_all : FileUploadHandlerOptions :=
  Options None None None None (Some (λ _, false)).

(** ** Vocabulary of the statements *)

(** Number of bytes carried by a sequence of chunks. *)
Definition total_bytes (data : list chunk) : Z := Z.of_nat (length (concat data)).

(** The running total of [data] is above [limit] once the chunk at index
    [k] has been received. *)
Definition exceeds_at (limit : Z) (data : list chunk) (k : nat) : Prop :=
  (k < length data)%nat ∧ limit < total_bytes (take (S k) data).

(** The cumulative streamed bytes exceed [limit] at some point of the
    stream. *)
Definition exceeds (limit : Z) (data : list chunk) : Prop :=
  ∃ k, exceeds_at limit data k.

(** The world after [write] has been called on the stream [ws] with each
    of the chunks [cs]. *)
Definition write_all (ws : nat) (cs : list chunk) (w : world) : world :=
  foldl (λ w c, ws_write ws c w) w cs.

(** The write stream as the handler leaves it: not opened, the chunks
    [cs] in its queue, and marked as ending. *)
Definition handed_over (p : string) (cs : list chunk) : WriteStream :=
  MkWriteStream p Unopened cs true.

(** The transform as [streamSlice.slice(start, end)] makes it. *)
Definition fresh_slicer (start end_ : Z) : SliceStream :=
  MkSliceStream start (if end_ =? 0 then None else Some end_) 0 false false false.

(** The transform after the source piped into it has ended. *)
Definition ended (s : SliceStream) : SliceStream :=
  MkSliceStream (sl_start s) (sl_end s) (sl_offset s) (sl_emitUp s) (sl_emitDown s) true.

(** The next [k] operations of one stream, starting from the stream [s]
    and the disk [disk]. *)
Definition run_ops (k : nat) (s : WriteStream) (disk : gmap string (list byte))
  : WriteStream * gmap string (list byte) :=
  Nat.iter k (λ sd, run_op sd.1 sd.2) (s, disk).

(** No write stream has anything left to do. *)
Definition quiescent (w : world) : Prop :=
  Forall (λ s, pending_ops s = 0%nat) (writers w).

(** Does the write stream number [ws] of a rejected upload open its file at
    [p] only after [rm] is done?  It does when [rm] looked for the file
    before the stream had opened it ([head_start] is 0) and either found
    none, or found an older one and removed it before the stream had come
    any further ([catch_up] is 0). *)
Definition opens_after_rm (h : host) (ws : nat) (p : string) (w : world) : bool :=
  match head_start h ws, files w !! p, catch_up h ws with
  | O, None, _ => true
  | O, Some _, O => true
  | _, _, _ => false
  end.

(** Is the event the closing of the write handle on [p]? *)
Definition is_close (p : string) (e : event) : bool :=
  match e with
  | EvClose q => bool_decide (q = p)
  | _ => false
  end.

(** How often the write handle on [p] is closed in a run of events. *)
Definition close_count (p : string) (evs : list event) : nat :=
  length (List.filter (is_close p) evs).

(** The name [uniqueFile] tries for the clock reading [now]: the path with
    "-" and the reading put before its extension. *)
Definition stamped (h : host) (filepath : string) (now : Z) : string :=
  (if String.eqb (extname h filepath) "" then filepath
   else slice_off_end filepath (String.length (extname h filepath)))
  +:+ "-" +:+ pretty now +:+ extname h filepath.

(** The filesystem calls of lines 122-143 of the handler when the chunks
    [cs] are written, with or without the final removal. *)
Definition store_events (h : host) (p : string) (cs : list chunk) (removed : bool)
  : list event :=
  [EvMkdir (dirname h p); EvOpenWrite p] ++ (EvWrite p <$> cs)
  ++ EvClose p :: (if removed then [EvRm p] else []).

(** The handler does not skip the part: it passes the configured filter,
    and the directory and file options give a non-empty string for it. *)
Definition accepted (h : host) (opts : FileUploadHandlerOptions)
    (part : UploadHandlerPart) : Prop :=
  let fargs := FilterArgs (part_filename part) (part_contentType part) (part_name part) in
  let rargs := ResolverArgs (part_filename part) (part_contentType part) (part_name part) in
  (∀ flt, filter opts = Some flt → flt fargs = true)
  ∧ truthy (match directory opts with
            | Some (PathString s) => Some s
            | Some (PathResolver dir) => dir rargs
            | None => Some (tmpdir h)
            end) = true
  ∧ (∀ src, file opts = Some src →
       truthy (match src with
               | PathString s => Some s
               | PathResolver fl => fl rargs
               end) = true).

(** Time goes on: after any reading of the clock and for any time [t], a
    later reading is above [t]. *)
Definition advances (f : nat → Z) : Prop :=
  ∀ i t, ∃ j, (i ≤ j)%nat ∧ t < f j.

(** ** Further vocabulary and sample inputs *)

(** The same part submitted [n] times to the same handler, each upload
    starting after the write stream of the one before it has done all its
    work. *)
Fixpoint repeat_upload_settled (handler : UploadHandler) (fuel : nat)
    (part : UploadHandlerPart) (n : nat) (w : world)
  : outcome (list (option NodeOnDiskFile)) :=
  match n with
  | O => Resolved [] w
  | S n =>
    match handler fuel part w with
    | Resolved r w =>
      match repeat_upload_settled handler fuel part n (settle w) with
      | Resolved rs w => Resolved (r :: rs) w
      | Rejected e w => Rejected e w
      | OutOfFuel => OutOfFuel
      end
    | Rejected e w => Rejected e w
    | OutOfFuel => OutOfFuel
    end
  end.

(** What a run returns or throws, and the world it leaves; [None] when the
    run did not end. *)
Definition outcome_value {A} (o : outcome A) : option (A + error) :=
  match o with
  | Resolved a _ => Some (inl a)
  | Rejected e _ => Some (inr e)
  | OutOfFuel => None
  end.

Definition outcome_world {A} (o : outcome A) : option world :=
  match o with
  | Resolved _ w | Rejected _ w => Some w
  | OutOfFuel => None
  end.

(** [n] calls of [arrayBuffer] on the same instance, one after the other. *)
Fixpoint read_times (n : nat) (this : NodeOnDiskFile) (w : world)
  : list (result (list byte)) * world :=
  match n with
  | O => ([], w)
  | S n =>
    let '(r, w) := arrayBuffer this w in
    let '(rs, w) := read_times n this w in
    (r :: rs, w)
  end.

(** The same part with another byte stream. *)
Definition with_data (part : UploadHandlerPart) (data : list chunk) : UploadHandlerPart :=
  Part (part_name part) (part_filename part) (part_contentType part) data.

(** The same options with [avoidFileConflicts] set. *)
Definition with_avoidFileConflicts (opts : FileUploadHandlerOptions) (b : bool)
  : FileUploadHandlerOptions :=
  Options (Some b) (directory opts) (file opts) (maxFileSize opts) (filter opts).

(** The sample host with a clock that stands still. *)
Definition frozen_host : host :=
  Host (resolvePath sample_host) (extname sample_host) (dirname sample_host)
       (basename sample_host) (tmpdir sample_host)
       (λ _, 1700000000000) (entropy sample_host) (decode sample_host)
       (head_start sample_host) (catch_up sample_host).

(** The sample host when the upload arrives slowly: by the time [rm] looks
    for the file, the write stream has opened it. *)
Definition slow_upload_host : host :=
  Host (resolvePath sample_host) (extname sample_host) (dirname sample_host)
       (basename sample_host) (tmpdir sample_host)
       (clock sample_host) (entropy sample_host) (decode sample_host)
       (λ _, 1%nat) (catch_up sample_host).

(** A world in which ./uploads/pic.png and its stamped name for the time
    of the frozen clock are both taken. *)
Definition world_stuck : world :=
  set_files {["/srv/app/uploads/pic.png" := [xff];
              "/srv/app/uploads/pic-1700000000000.png" := [xfe]]} empty_world.

(** The field "avatar" with a stream that ends at once. *)
Definition avatar_empty : UploadHandlerPart := with_data avatar [].

(** Options whose directory is the empty string. *)
Definition empty_directory_options : FileUploadHandlerOptions :=
  Options None (Some (PathString "")) None None None.

(** * The server bundle's build options (remix-dev, compiler/server/compiler.ts)

    [createEsbuildConfig] builds the options object handed to esbuild.  The
    plugins are values made by imported constructors; a plugin is modelled
    by the constructor that made it and the arguments it got.  The types
    [Context] and the references object come from modules that are not among
    the sources: they are records of the fields this file reads.  A regular
    expression is the string of its source text. *)

Module ServerCompiler.

(** [boolean | "empty"], the setting of one module in
    [NodePolyfillsOptions.modules]. *)
Inductive ModuleSetting :=
  | Polyfill (on : bool)
  | EmptyModule.

(** [ctx.config.serverNodeBuiltinsPolyfill]: a boolean, or an object with
    [modules]. *)
Inductive NodeBuiltinsPolyfill :=
  | PolyfillFlag (b : bool)
  | PolyfillModules (modules : gmap string ModuleSetting).

Record Config := MkConfig {
  serverEntryPoint : option string;
  serverBuildTargetEntryModule : string;
  rootDirectory : string;
  serverNodeBuiltinsPolyfill : option NodeBuiltinsPolyfill;
  serverBuildPath : string;
  serverConditions : option (list string);
  serverPlatform : string;
  serverModuleFormat : string;
  serverMinify : bool;
  serverMainFields : list string;
  tsconfigPath : option string;
  publicPath : string;
  devServerPort : option Z;
}.

Record CompileOptions := MkCompileOptions {
  mode : string;
  sourcemap : bool;
  REMIX_DEV_ORIGIN : option string;
}.

Record Context := MkContext {
  config : Config;
  options : CompileOptions;
}.

(** The channel and the lazy value are objects made elsewhere; they are
    known here by their identity only. *)
Record Refs := MkRefs {
  manifestChannel : nat;
  lazyCssBundleHref : nat;
}.

Inductive Plugin :=
  | deprecatedRemixPackagePlugin (ctx : Context)
  | cssBundlePlugin (refs : Refs)
  | cssModulesPlugin (ctx : Context) (outputCss : bool)
  | vanillaExtractPlugin (ctx : Context) (outputCss : bool)
  | cssSideEffectImportsPlugin (ctx : Context)
  | cssFilePlugin (ctx : Context)
  | absoluteCssUrlsPlugin
  | externalPlugin (pattern : string) (sideEffects : bool)
  | mdxPlugin (ctx : Context)
  | emptyModulesPlugin (ctx : Context) (pattern : string)
  | serverRouteModulesPlugin (ctx : Context)
  | serverEntryModulePlugin (ctx : Context)
  | serverAssetsManifestPlugin (refs : Refs)
  | serverBareModulesPlugin (ctx : Context)
  | nodeModulesPolyfillPlugin (modules : gmap string ModuleSetting).

Record StdinOptions := MkStdin {
  contents : string;
  resolveDir : string;
  stdin_loader : string;
}.

(** What the module takes from its surroundings: the imported [loaders]
    table, Node's [builtinModules], and [JSON.stringify] on a string and on
    a number. *)
Record Env := MkEnv {
  loaders : list (string * string);
  builtinModules : list string;
  json_of_string : string → string;
  json_of_number : Z → string;
}.

Record BuildOptions := MkBuildOptions {
  absWorkingDir : string;
  stdin : option StdinOptions;
  entryPoints : option (list string);
  outfile : string;
  conditions : option (list string);
  platform : string;
  format : string;
  treeShaking : bool;
  minifySyntax : bool;
  minify : bool;
  mainFields : list string;
  target : string;
  loader : list (string * string);
  bundle : bool;
  logLevel : string;
  tsconfig : option string;
  build_sourcemap : bool;
  assetNames : string;
  build_publicPath : string;
  define : list (string * option string);
  jsx : string;
  jsxDev : bool;
  plugins : list Plugin;
}.

(** [list.includes(x)] *)
Definition includes (l : list string) (x : string) : bool := bool_decide (x ∈ l).

Definition unimplemented : list string :=
  ["async_hooks"; "child_process"; "cluster"; "dgram"; "dns"; "dns/promises";
   "http2"; "net"; "readline"; "repl"; "tls"; "v8"].

Definition empty : list string :=
  ["fs"; "crypto"; "dns"; "dgram"; "cluster"; "repl"; "tls"].

(** [defaultPolyfillOptions.modules]: [builtinModules.reduce] with
    [Object.assign(acc, { [modname]: ... })], starting from the empty object. *)
Definition defaultPolyfillModules (env : Env) : gmap string ModuleSetting :=
  foldl
    (λ acc modname,
       <[modname := if includes empty modname then EmptyModule
                    else Polyfill (negb (includes unimplemented modname))]> acc)
    ∅ (builtinModules env).

(** JavaScript truthiness of [ctx.config.serverNodeBuiltinsPolyfill]. *)
Definition polyfill_enabled (p : option NodeBuiltinsPolyfill) : bool :=
  match p with
  | Some (PolyfillFlag b) => b
  | Some (PolyfillModules _) => true
  | None => false
  end.

Definition createEsbuildConfig (env : Env) (ctx : Context) (refs : Refs) : BuildOptions :=
  let '(stdin, entryPoints) :=
    if truthy (serverEntryPoint (config ctx))
    then (None, Some [default "" (serverEntryPoint (config ctx))])
    else (Some (MkStdin (serverBuildTargetEntryModule (config ctx))
                  (rootDirectory (config ctx)) "ts"),
          None) in
  let plugins :=
    [deprecatedRemixPackagePlugin ctx;
     cssBundlePlugin refs;
     cssModulesPlugin ctx false;
     vanillaExtractPlugin ctx false;
     cssSideEffectImportsPlugin ctx;
     cssFilePlugin ctx;
     absoluteCssUrlsPlugin;
     externalPlugin "^https?:\/\/" false;
     mdxPlugin ctx;
     emptyModulesPlugin ctx "\.client(\.[jt]sx?)?$";
     serverRouteModulesPlugin ctx;
     serverEntryModulePlugin ctx;
     serverAssetsManifestPlugin refs;
     serverBareModulesPlugin ctx;
     externalPlugin "^node:.*" false] in
  let plugins :=
    if polyfill_enabled (serverNodeBuiltinsPolyfill (config ctx)) then
      nodeModulesPolyfillPlugin
        match serverNodeBuiltinsPolyfill (config ctx) with
        | Some (PolyfillModules modules) => modules
        | _ => defaultPolyfillModules env
        end
      :: plugins
    else plugins in
  MkBuildOptions
    (rootDirectory (config ctx))
    stdin
    entryPoints
    (serverBuildPath (config ctx))
    (serverConditions (config ctx))
    (serverPlatform (config ctx))
    (serverModuleFormat (config ctx))
    true
    true
    (String.eqb (mode (options ctx)) "production" && serverMinify (config ctx))
    (serverMainFields (config ctx))
    "node14"
    (loaders env)
    true
    "silent"
    (tsconfigPath (config ctx))
    (sourcemap (options ctx))
    "_assets/[name]-[hash]"
    (publicPath (config ctx))
    [("process.env.NODE_ENV", Some (json_of_string env (mode (options ctx))));
     ("process.env.REMIX_DEV_SERVER_WS_PORT",
      json_of_number env <$> devServerPort (config ctx));
     ("process.env.REMIX_DEV_ORIGIN",
      Some (json_of_string env (default "" (REMIX_DEV_ORIGIN (options ctx)))));
     ("process.env.REMIX_DEV_HTTP_ORIGIN",
      Some (json_of_string env (default "" (REMIX_DEV_ORIGIN (options ctx)))))]
    "automatic"
    (negb (String.eqb (mode (options ctx)) "production"))
    plugins.

End ServerCompiler.

(** *** Sample inputs for the build options *)

Definition sample_env : ServerCompiler.Env :=
  ServerCompiler.MkEnv [(".ts", "ts"); (".css", "css")]
    ["fs"; "path"; "dns"; "net"; "dns/promises"]
    (λ s, String "034" (s +:+ String "034" "")) pretty.

Definition sample_config : ServerCompiler.Config :=
  ServerCompiler.MkConfig None "export * from 'entry';" "/srv/app"
    (Some (ServerCompiler.PolyfillFlag true)) "/srv/app/build/index.js" None
    "node" "cjs" true ["main"; "module"] None "/build/" None.

Definition sample_context : ServerCompiler.Context :=
  ServerCompiler.MkContext sample_config
    (ServerCompiler.MkCompileOptions "production" false None).

Definition sample_refs : ServerCompiler.Refs := ServerCompiler.MkRefs 0 1.

(** ** Basic facts: chunks and running totals *)

Lemma total_bytes_nil : total_bytes [] = 0.
Proof. reflexivity. Qed.

Lemma total_bytes_cons c data :
  total_bytes (c :: data) = Z.of_nat (length c) + total_bytes data.
Proof. unfold total_bytes. simpl. rewrite length_app. lia. Qed.

Lemma total_bytes_app d1 d2 :
  total_bytes (d1 ++ d2) = total_bytes d1 + total_bytes d2.
Proof.
  induction d1 as [|c d1 IH]; simpl.
  - rewrite total_bytes_nil. lia.
  - rewrite !total_bytes_cons, IH. lia.
Qed.

Lemma total_bytes_nonneg data : 0 ≤ total_bytes data.
Proof. unfold total_bytes. lia. Qed.

Lemma total_bytes_take_le k data : total_bytes (take k data) ≤ total_bytes data.
Proof.
  rewrite <- (take_drop k data) at 2. rewrite total_bytes_app.
  pose proof (total_bytes_nonneg (drop k data)). lia.
Qed.

(** With a limit that is not negative, the running total exceeds the limit
    at some chunk exactly when the whole stream is longer than the limit. *)
Lemma exceeds_iff_total limit data :
  0 ≤ limit → exceeds limit data ↔ limit < total_bytes data.
Proof.
  intros Hlim. split.
  - intros (k & _ & Hk). pose proof (total_bytes_take_le (S k) data). lia.
  - intros Htot. destruct data as [|c data].
    + rewrite total_bytes_nil in Htot. lia.
    + exists (length data). split; [simpl; lia|].
      rewrite firstn_all2; [done|simpl; lia].
Qed.

Lemma not_exceeds_of_total limit data :
  total_bytes data ≤ limit → ¬ exceeds limit data.
Proof.
  intros Hle (k & _ & Hk). pose proof (total_bytes_take_le (S k) data). lia.
Qed.

Lemma total_bytes_take_S k c data :
  total_bytes (take (S k) (c :: data))
  = Z.of_nat (length c) + total_bytes (take k data).
Proof. change (take (S k) (c :: data)) with (c :: take k data). apply total_bytes_cons. Qed.

Lemma total_bytes_take_0 data : total_bytes (take 0 data) = 0.
Proof. by rewrite take_0. Qed.

(** The first chunk at which the running total crosses the limit. *)
Lemma first_crossing limit data :
  exceeds limit data →
  ∃ pre c post,
    data = pre ++ c :: post
    ∧ ¬ exceeds limit pre
    ∧ limit < total_bytes pre + Z.of_nat (length c).
Proof.
  revert limit. induction data as [|c data IH]; intros limit (k & Hlen & Hk).
  - simpl in Hlen. lia.
  - destruct (decide (limit < Z.of_nat (length c))) as [Hc|Hc].
    + exists [], c, data. split; [done|]. split.
      * intros (j & Hj & _). simpl in Hj. lia.
      * rewrite total_bytes_nil. lia.
    + rewrite total_bytes_take_S in Hk. destruct k as [|k].
      { rewrite total_bytes_take_0 in Hk. lia. }
      destruct (IH (limit - Z.of_nat (length c))) as (pre & c' & post & -> & Hpre & Hcross).
      { exists k. split; [simpl in Hlen; lia|lia]. }
      exists (c :: pre), c', post. split; [done|]. split.
      * intros (j & Hj & Hjk). rewrite total_bytes_take_S in Hjk. destruct j as [|j].
        { rewrite total_bytes_take_0 in Hjk. lia. }
        apply Hpre. exists j. split; [simpl in Hj; lia|lia].
      * rewrite total_bytes_cons. lia.
Qed.

Lemma exceeds_cons limit c data :
  exceeds limit (c :: data)
  ↔ limit < Z.of_nat (length c) ∨ exceeds (limit - Z.of_nat (length c)) data.
Proof.
  split.
  - intros (k & Hlen & Hk). rewrite total_bytes_take_S in Hk.
    destruct k as [|k].
    + rewrite total_bytes_take_0 in Hk. left. lia.
    + right. exists k. split; [simpl in Hlen; lia|lia].
  - intros [Hc|(k & Hlen & Hk)].
    + exists 0%nat. split; [simpl; lia|].
      rewrite total_bytes_take_S, total_bytes_take_0. lia.
    + exists (S k). split; [simpl; lia|].
      rewrite total_bytes_take_S. lia.
Qed.

(** ** Basic facts: write streams and the background *)

Lemma WriteStream_eta (s : WriteStream) :
  MkWriteStream (ws_path s) (ws_fd s) (ws_queue s) (ws_ending s) = s.
Proof. by destruct s. Qed.

Lemma world_eta (w : world) :
  World (files w) (slicers w) (writers w) (trace w) (ticks w) (draws w) = w.
Proof. by destruct w. Qed.

Lemma write_all_nil ws w : write_all ws [] w = w.
Proof. reflexivity. Qed.

Lemma write_all_cons ws c cs w :
  write_all ws (c :: cs) w = write_all ws cs (ws_write ws c w).
Proof. reflexivity. Qed.

(** Writing chunks only lengthens the queue of the stream and the trace. *)
Lemma write_all_world ws s cs w :
  writers w !! ws = Some s →
  write_all ws cs w
  = World (files w) (slicers w)
      (<[ws := MkWriteStream (ws_path s) (ws_fd s) (ws_queue s ++ cs) (ws_ending s)]>
         (writers w))
      (trace w ++ (EvWrite (ws_path s) <$> cs)) (ticks w) (draws w).
Proof.
  revert s w. induction cs as [|c cs IH]; intros s w Hs.
  - rewrite write_all_nil, !app_nil_r, WriteStream_eta.
    rewrite list_insert_id by done. by rewrite world_eta.
  - rewrite write_all_cons.
    assert (ws < length (writers w))%nat as Hlt by (by eapply lookup_lt_Some).
    rewrite (IH (MkWriteStream (ws_path s) (ws_fd s) (ws_queue s ++ [c]) (ws_ending s))).
    + unfold ws_write. rewrite Hs. cbn. rewrite list_insert_insert_eq.
      by rewrite <- !app_assoc.
    + unfold ws_write. rewrite Hs. cbn. by apply list_lookup_insert_eq.
Qed.

(** An operation of a stream changes no file but the one at its path, and
    the stream keeps its path. *)
Lemma run_op_path s disk : ws_path (run_op s disk).1 = ws_path s.
Proof. unfold run_op. repeat case_match; done. Qed.

Lemma run_op_other s disk q :
  q ≠ ws_path s → (run_op s disk).2 !! q = disk !! q.
Proof.
  intros Hq. unfold run_op. repeat case_match; cbn; try done.
  - by rewrite lookup_insert_ne.
  - by rewrite lookup_alter_ne.
Qed.

Lemma step_stream_unfold ws w s :
  writers w !! ws = Some s →
  step_stream ws w
  = World (run_op s (files w)).2 (slicers w) (<[ws := (run_op s (files w)).1]> (writers w))
      (trace w) (ticks w) (draws w).
Proof. intros Hs. unfold step_stream. rewrite Hs. by destruct (run_op s (files w)). Qed.

(** The background touches neither the trace, nor the transforms, nor the
    clock, nor the random source, and makes no new stream. *)
Lemma step_stream_rest ws w :
  trace (step_stream ws w) = trace w ∧ slicers (step_stream ws w) = slicers w
  ∧ ticks (step_stream ws w) = ticks w ∧ draws (step_stream ws w) = draws w
  ∧ length (writers (step_stream ws w)) = length (writers w).
Proof.
  destruct (writers w !! ws) as [s|] eqn:Hs.
  - rewrite (step_stream_unfold ws w s Hs). cbn. by rewrite length_insert.
  - unfold step_stream. by rewrite Hs.
Qed.

Lemma background_nil w : background [] w = w.
Proof. reflexivity. Qed.

Lemma background_cons ws sched w :
  background (ws :: sched) w = background sched (step_stream ws w).
Proof. reflexivity. Qed.

Lemma background_app s1 s2 w :
  background (s1 ++ s2) w = background s2 (background s1 w).
Proof. apply foldl_app. Qed.

Lemma background_rest sched w :
  trace (background sched w) = trace w ∧ slicers (background sched w) = slicers w
  ∧ ticks (background sched w) = ticks w ∧ draws (background sched w) = draws w
  ∧ length (writers (background sched w)) = length (writers w).
Proof.
  revert w. induction sched as [|ws sched IH]; intros w; [done|].
  rewrite background_cons.
  destruct (IH (step_stream ws w)) as (-> & -> & -> & -> & ->).
  apply step_stream_rest.
Qed.


(** The operations of one stream leave the files at other paths alone. *)
Lemma background_own_frame k ws w s :
  writers w !! ws = Some s →
  (∀ q, q ≠ ws_path s →
        files (background (replicate k ws) w) !! q = files w !! q)
  ∧ ∃ s', writers (background (replicate k ws) w) !! ws = Some s'
          ∧ ws_path s' = ws_path s.
Proof.
  revert w s. induction k as [|k IH]; intros w s Hs.
  - split; [done|]. by exists s.
  - cbn [replicate]. rewrite background_cons.
    assert (ws < length (writers w))%nat as Hlt by (by eapply lookup_lt_Some).
    destruct (IH (step_stream ws w) (run_op s (files w)).1) as [Hother (s' & Hs' & Hpath)].
    { rewrite (step_stream_unfold ws w s Hs). cbn. by apply list_lookup_insert_eq. }
    rewrite run_op_path in *. split.
    + intros q Hq. rewrite (Hother q Hq), (step_stream_unfold ws w s Hs). cbn.
      by apply run_op_other.
    + exists s'. by rewrite Hpath.
Qed.

(** [rm] leaves no file at its path, and changes no file at another path
    unless what Node does in between does. *)
Lemma rm_gone p m w : files (rm p m w) !! p = None.
Proof.
  unfold rm, unlink. destruct (files w !! p) eqn:Hp; cbn; [|done]. apply lookup_delete_eq.
Qed.

Lemma rm_other p m w q :
  q ≠ p → files (m w) !! q = files w !! q → files (rm p m w) !! q = files w !! q.
Proof.
  intros Hq Hm. unfold rm, unlink. destruct (files w !! p); cbn; [|done].
  by rewrite lookup_delete_ne.
Qed.

Lemma rm_rest p m w :
  trace (m w) = trace w → slicers (m w) = slicers w →
  trace (rm p m w) = trace w ++ [EvRm p] ∧ slicers (rm p m w) = slicers w.
Proof.
  intros Ht Hs. unfold rm, unlink. destruct (files w !! p); cbn; [|done].
  by rewrite Ht, Hs.
Qed.


(** ** Basic facts: the copy loop *)

Lemma copy_chunks_within name limit ws data s d w :
  ¬ exceeds (limit - s) data →
  copy_chunks name limit ws data (Locals s d) w
  = (Locals (s + total_bytes data) d, None, write_all ws data w).
Proof.
  revert s w. induction data as [|c data IH]; intros s w Hin.
  - simpl. rewrite total_bytes_nil, Z.add_0_r. reflexivity.
  - rewrite exceeds_cons in Hin. cbn [copy_chunks l_size l_deleteFile].
    destruct (Z.ltb_spec limit (s + Z.of_nat (length c))) as [Hlt|Hge].
    + exfalso. apply Hin. left. lia.
    + rewrite IH.
      * by rewrite total_bytes_cons, write_all_cons, Z.add_assoc.
      * intros Hex. apply Hin. right.
        replace (limit - s - Z.of_nat (length c))
          with (limit - (s + Z.of_nat (length c))) by lia. exact Hex.
Qed.

Lemma copy_chunks_crossing name limit ws pre c post s d w :
  ¬ exceeds (limit - s) pre →
  limit - s < total_bytes pre + Z.of_nat (length c) →
  copy_chunks name limit ws (pre ++ c :: post) (Locals s d) w
  = (Locals (s + total_bytes pre + Z.of_nat (length c)) true,
     Some (MeterError name limit), write_all ws pre w).
Proof.
  revert s w. induction pre as [|c0 pre IH]; intros s w Hin Hcross.
  - rewrite total_bytes_nil in *. simpl.
    destruct (Z.ltb_spec limit (s + Z.of_nat (length c))) as [Hlt|Hge]; [|lia].
    rewrite Z.add_0_r. reflexivity.
  - rewrite exceeds_cons in Hin. rewrite total_bytes_cons in Hcross.
    cbn [copy_chunks l_size l_deleteFile app].
    destruct (Z.ltb_spec limit (s + Z.of_nat (length c0))) as [Hlt|Hge].
    + exfalso. apply Hin. left. lia.
    + rewrite IH.
      * by rewrite total_bytes_cons, write_all_cons, Z.add_assoc.
      * intros Hex. apply Hin. right.
        replace (limit - s - Z.of_nat (length c0))
          with (limit - (s + Z.of_nat (length c0))) by lia. exact Hex.
      * lia.
Qed.

(** ** The write phase of the handler *)

Section StoreAt.
Context (h : host).

(** Within the limit the write phase makes one stream, queues every chunk
    on it and marks it as ending; the disk is as it was. *)
Lemma store_at_within o part p w :
  ¬ exceeds (r_maxFileSize o) (part_data part) →
  store_at h o part p w
  = Resolved
      (Some (new_NodeOnDiskFile h p (total_bytes (part_data part))
               (part_contentType part) None))
      (World (files w) (slicers w) (writers w ++ [handed_over p (part_data part)])
             (trace w ++ store_events h p (part_data part) false)
             (ticks w) (draws w)).
Proof.
  intros Hin. unfold store_at, createWriteStream, mkdir.
  rewrite copy_chunks_within by (by rewrite Z.sub_0_r).
  erewrite write_all_world by (cbn; by rewrite lookup_app_r, Nat.sub_diag).
  unfold ws_close. cbn.
  rewrite list_lookup_insert_eq by (rewrite length_app; cbn; lia).
  cbn. rewrite list_insert_insert_eq.
  rewrite insert_app_r_alt, Nat.sub_diag by lia. cbn.
  unfold store_events, handed_over, log, set_writers. cbn. by rewrite <- !app_assoc.
Qed.

(** Over the limit the chunks before the crossing one are queued, the
    stream is marked as ending, and [rm] looks for the file, and removes
    it, after the stream has carried out as many operations as the host
    says. *)
Lemma store_at_crossing o part p w pre c post :
  part_data part = pre ++ c :: post →
  ¬ exceeds (r_maxFileSize o) pre →
  r_maxFileSize o < total_bytes pre + Z.of_nat (length c) →
  store_at h o part p w
  = Rejected
      (MeterError (part_name part) (r_maxFileSize o))
      (rm p
         (background (replicate (catch_up h (length (writers w))) (length (writers w))))
         (background (replicate (head_start h (length (writers w))) (length (writers w)))
            (World (files w) (slicers w) (writers w ++ [handed_over p pre])
               (trace w ++ store_events h p pre false) (ticks w) (draws w)))).
Proof.
  intros Hdata Hin Hcross. unfold store_at, createWriteStream, mkdir. rewrite Hdata.
  rewrite (copy_chunks_crossing _ _ _ pre c post) by (rewrite ?Z.sub_0_r; done).
  erewrite write_all_world by (cbn; by rewrite lookup_app_r, Nat.sub_diag).
  unfold ws_close. cbn.
  rewrite list_lookup_insert_eq by (rewrite length_app; cbn; lia).
  cbn. rewrite list_insert_insert_eq.
  rewrite insert_app_r_alt, Nat.sub_diag by lia. cbn.
  unfold store_events, handed_over, log, set_writers. cbn. by rewrite <- !app_assoc.
Qed.

(** When the first phase yields a path, the handler is the write phase at
    that path. *)
Lemma handler_store opts fuel part w p w1 :
  choose_filepath h (with_defaults h opts) fuel part w = Some (Some p, w1) →
  createFileUploadHandler h opts fuel part w
  = store_at h (with_defaults h opts) part p w1.
Proof. intros Hc. unfold createFileUploadHandler. by rewrite Hc. Qed.

Lemma close_count_store_events p cs removed :
  close_count p (store_events h p cs removed) = 1%nat.
Proof.
  unfold close_count, store_events. cbn [app List.filter is_close].
  rewrite List.filter_app. cbn [List.filter is_close].
  rewrite bool_decide_true by done.
  replace (List.filter (is_close p) (EvWrite p <$> cs)) with (@nil event).
  - by destruct removed.
  - induction cs as [|c cs IH]; [done|]. exact IH.
Qed.

Lemma store_events_removed p cs :
  store_events h p cs true = store_events h p cs false ++ [EvRm p].
Proof. unfold store_events. by rewrite <- !app_assoc. Qed.

(** The world in which a rejected run ends: its trace, and its files and
    transforms away from the destination. *)
Lemma store_at_crossing_world o part p w pre c post :
  part_data part = pre ++ c :: post →
  ¬ exceeds (r_maxFileSize o) pre →
  r_maxFileSize o < total_bytes pre + Z.of_nat (length c) →
  ∃ w',
    store_at h o part p w = Rejected (MeterError (part_name part) (r_maxFileSize o)) w'
    ∧ trace w' = trace w ++ store_events h p pre true
    ∧ slicers w' = slicers w
    ∧ files w' !! p = None
    ∧ ∀ q, q ≠ p → files w' !! q = files w !! q.
Proof.
  intros Hdata Hpre Hcross.
  rewrite (store_at_crossing o part p w pre c post Hdata Hpre Hcross).
  eexists. split; [reflexivity|].
  set (W := World _ _ _ _ _ _). set (k := head_start _ _). set (k' := catch_up _ _).
  set (W1 := background (replicate k (length (writers w))) W).
  destruct (background_rest (replicate k (length (writers w))) W)
    as (Ht1 & Hs1 & _).
  destruct (background_rest (replicate k' (length (writers w))) W1)
    as (Ht2 & Hs2 & _).
  destruct (rm_rest p (background (replicate k' (length (writers w)))) W1 Ht2 Hs2)
    as (-> & ->).
  fold W1 in Ht1, Hs1. rewrite Ht1, Hs1.
  split; [subst W; cbn [trace]; by rewrite store_events_removed, app_assoc|].
  split; [done|]. split; [apply rm_gone|].
  destruct (background_own_frame k (length (writers w)) W (handed_over p pre))
    as [Hother (s1 & Hs1' & Hpath1)].
  { subst W. cbn. by rewrite lookup_app_r, Nat.sub_diag. }
  fold W1 in Hother, Hs1'.
  destruct (background_own_frame k' (length (writers w)) W1 s1 Hs1') as [Hother' _].
  intros q Hq. rewrite rm_other; [by rewrite Hother|done|].
  apply Hother'. by rewrite Hpath1.
Qed.

End StoreAt.

(** ** stream-slice on a range inside the stream *)

Lemma buffer_slice_inside (a b : Z) (c : list byte) :
  0 ≤ a → a ≤ b → b ≤ Z.of_nat (length c) →
  buffer_slice a b c = take (Z.to_nat (b - a)) (drop (Z.to_nat a) c).
Proof.
  intros Ha Hab Hb. unfold buffer_slice.
  destruct (Z.ltb_spec a 0) as [?|_]; [lia|].
  destruct (Z.ltb_spec b 0) as [?|_]; [lia|].
  by rewrite !Z.min_l by lia.
Qed.

(** Once the end of the range has been passed, nothing is pushed. *)
Lemma feed_down s cs :
  sl_emitUp s = true → sl_emitDown s = true → (feed s cs).1 = [].
Proof.
  revert s. induction cs as [|c cs IH]; intros s Hup Hdown; [done|].
  cbn [feed]. unfold _transform. rewrite Hup, Hdown. cbn [negb andb].
  specialize (IH (MkSliceStream (sl_start s) (sl_end s)
                    (sl_offset s + Z.of_nat (length c)) true true (sl_ended s))
                 eq_refl eq_refl).
  destruct (feed _ cs) as [rest s']. cbn in *. by rewrite IH.
Qed.

(** Inside the range the bytes pass until the end of the range. *)
Lemma feed_inside s cs e :
  sl_emitUp s = true → sl_emitDown s = false → sl_end s = Some e →
  sl_offset s ≤ e →
  (feed s cs).1 = take (Z.to_nat (e - sl_offset s)) (concat cs).
Proof.
  revert s. induction cs as [|c cs IH]; intros s Hup Hdown He Ho.
  - cbn. by rewrite take_nil.
  - cbn [feed concat]. unfold _transform. rewrite Hup, Hdown, He. cbn [negb andb].
    destruct (Z.leb_spec e (sl_offset s + Z.of_nat (length c))) as [Hpast|Hnot].
    + pose proof (feed_down
        (MkSliceStream (sl_start s) (Some e) (sl_offset s + Z.of_nat (length c))
           true true (sl_ended s)) cs eq_refl eq_refl) as Hrest.
      destruct (feed _ cs) as [rest s']. cbn in *. subst rest.
      rewrite app_nil_r, buffer_slice_inside by lia.
      rewrite Z.sub_0_r, drop_0.
      replace (Z.of_nat (length c) - (sl_offset s + Z.of_nat (length c) - e))
        with (e - sl_offset s) by lia.
      by rewrite take_app_le by lia.
    + specialize (IH (MkSliceStream (sl_start s) (Some e)
                        (sl_offset s + Z.of_nat (length c)) true false (sl_ended s))
                     eq_refl eq_refl eq_refl ltac:(cbn; lia)).
      destruct (feed _ cs) as [rest s']. cbn in *. subst rest.
      rewrite take_app_ge by lia. f_equal. f_equal. lia.
Qed.

(** Before the range the bytes are dropped until its start. *)
Lemma feed_before s cs e :
  sl_emitUp s = false → sl_emitDown s = false → sl_end s = Some e →
  sl_offset s ≤ sl_start s → sl_start s ≤ e →
  (feed s cs).1
  = take (Z.to_nat (e - sl_start s)) (drop (Z.to_nat (sl_start s - sl_offset s)) (concat cs)).
Proof.
  revert s. induction cs as [|c cs IH]; intros s Hup Hdown He Ho Hse.
  - cbn. by rewrite drop_nil, take_nil.
  - cbn [feed concat]. unfold _transform. rewrite Hup, He. cbn [negb andb].
    destruct (Z.leb_spec (sl_start s) (sl_offset s + Z.of_nat (length c))) as [Hin|Hout].
    + replace (Z.of_nat (length c) - (sl_offset s + Z.of_nat (length c) - sl_start s))
        with (sl_start s - sl_offset s) by lia.
      destruct (Z.ltb_spec e (sl_offset s + Z.of_nat (length c))) as [Hpast|Hnot].
      * pose proof (feed_down
          (MkSliceStream (sl_start s) (Some e) (sl_offset s + Z.of_nat (length c))
             true true (sl_ended s)) cs eq_refl eq_refl) as Hrest.
        destruct (feed _ cs) as [rest s']. cbn in *. subst rest.
        rewrite app_nil_r, buffer_slice_inside by lia.
        rewrite drop_app_le by lia.
        rewrite take_app_le by (rewrite length_drop; lia).
        f_equal. lia.
      * rewrite Hdown.
        pose proof (feed_inside
          (MkSliceStream (sl_start s) (Some e) (sl_offset s + Z.of_nat (length c))
             true false (sl_ended s)) cs e eq_refl eq_refl eq_refl ltac:(cbn; lia))
          as Hrest.
        destruct (feed _ cs) as [rest s']. cbn in *. subst rest.
        rewrite buffer_slice_inside by lia.
        rewrite drop_app_le by lia.
        rewrite take_app_ge by (rewrite length_drop; lia).
        rewrite length_drop.
        rewrite (take_ge (drop _ c)) by (rewrite length_drop; lia).
        f_equal. f_equal. lia.
    + rewrite Hdown. cbn [andb].
      specialize (IH (MkSliceStream (sl_start s) (Some e)
                        (sl_offset s + Z.of_nat (length c)) false false (sl_ended s))
                     eq_refl eq_refl eq_refl ltac:(cbn; lia) Hse).
      destruct (feed _ cs) as [rest s']. cbn in *. subst rest.
      rewrite drop_app_ge by lia. f_equal. f_equal. lia.
Qed.

(** Without an end, everything from the start on passes. *)
Lemma feed_unbounded_inside s cs :
  sl_emitUp s = true → sl_emitDown s = false → sl_end s = None →
  (feed s cs).1 = concat cs.
Proof.
  revert s. induction cs as [|c cs IH]; intros s Hup Hdown He; [done|].
  cbn [feed concat]. unfold _transform. rewrite Hup, Hdown, He. cbn [negb andb].
  specialize (IH (MkSliceStream (sl_start s) None
                    (sl_offset s + Z.of_nat (length c)) true false (sl_ended s))
                 eq_refl eq_refl eq_refl).
  destruct (feed _ cs) as [rest s']. cbn in *. by subst rest.
Qed.

Lemma feed_unbounded s cs :
  sl_emitUp s = false → sl_emitDown s = false → sl_end s = None →
  sl_offset s ≤ sl_start s →
  (feed s cs).1 = drop (Z.to_nat (sl_start s - sl_offset s)) (concat cs).
Proof.
  revert s. induction cs as [|c cs IH]; intros s Hup Hdown He Ho.
  - cbn. by rewrite drop_nil.
  - cbn [feed concat]. unfold _transform. rewrite Hup, He. cbn [negb andb].
    destruct (Z.leb_spec (sl_start s) (sl_offset s + Z.of_nat (length c))) as [Hin|Hout].
    + replace (Z.of_nat (length c) - (sl_offset s + Z.of_nat (length c) - sl_start s))
        with (sl_start s - sl_offset s) by lia.
      rewrite Hdown.
      pose proof (feed_unbounded_inside
        (MkSliceStream (sl_start s) None (sl_offset s + Z.of_nat (length c))
           true false (sl_ended s)) cs eq_refl eq_refl eq_refl) as Hrest.
      destruct (feed _ cs) as [rest s']. cbn in *. subst rest.
      rewrite buffer_slice_inside by lia.
      rewrite drop_app_le by lia.
      by rewrite take_ge by (rewrite length_drop; lia).
    + rewrite Hdown. cbn [andb].
      specialize (IH (MkSliceStream (sl_start s) None
                        (sl_offset s + Z.of_nat (length c)) false false (sl_ended s))
                     eq_refl eq_refl eq_refl ltac:(cbn; lia)).
      destruct (feed _ cs) as [rest s']. cbn in *. subst rest.
      rewrite drop_app_ge by lia. f_equal. lia.
Qed.

(** The chunks of a read stream make up the file. *)
Lemma concat_chunks_of fuel n l :
  (0 < n)%nat → (length l ≤ fuel)%nat → concat (chunks_of fuel n l) = l.
Proof.
  intros Hn. revert l. induction fuel as [|fuel IH]; intros l Hl.
  - destruct l; [done|simpl in Hl; lia].
  - destruct l as [|b l]; [done|]. cbn [chunks_of concat].
    rewrite IH; [apply take_drop|]. rewrite length_drop. simpl in *. lia.
Qed.

Lemma concat_read_chunks content : concat (read_chunks content) = content.
Proof.
  apply concat_chunks_of; [|done]. unfold highWaterMark. apply Pos2Nat.is_pos.
Qed.

(** A fresh transform for [start, end) with [0 <= start <= end] and
    [0 < end] lets exactly the bytes at these positions of the file
    through. *)
Lemma fresh_slicer_range (start end_ : Z) content :
  0 ≤ start → start ≤ end_ → 0 < end_ →
  (feed (fresh_slicer start end_) (read_chunks content)).1
  = take (Z.to_nat end_ - Z.to_nat start) (drop (Z.to_nat start) content).
Proof.
  intros H0 Hse Hend. unfold fresh_slicer.
  destruct (Z.eqb_spec end_ 0) as [?|_]; [lia|].
  rewrite (feed_before _ _ end_) by (cbn; done || lia).
  cbn. rewrite concat_read_chunks, Z.sub_0_r. f_equal. lia.
Qed.

(** With [end = 0] the transform has no end: everything from [start] on
    passes. *)
Lemma fresh_slicer_no_end (start : Z) content :
  0 ≤ start →
  (feed (fresh_slicer start 0) (read_chunks content)).1 = drop (Z.to_nat start) content.
Proof.
  intros H0. unfold fresh_slicer. cbn.
  rewrite feed_unbounded by (cbn; done || lia).
  cbn. by rewrite concat_read_chunks, Z.sub_0_r.
Qed.

(** ** Reading a [NodeOnDiskFile] *)

Section Reading.
Context (h : host).

(** A file without a slice window reads the whole backing file and
    leaves everything but the trace as it was. *)
Lemma arrayBuffer_plain this w content :
  slicer this = None →
  files w !! filepath this = Some content →
  arrayBuffer this w = (Ok content, log (EvOpenRead (filepath this)) w).
Proof.
  intros Hs Hf. unfold arrayBuffer, open_stream, createReadStream.
  by rewrite Hs, Hf.
Qed.

(** When no file is at the path, the read rejects with ENOENT. *)
Lemma arrayBuffer_missing this w :
  slicer this = None →
  files w !! filepath this = None →
  arrayBuffer this w = (Err (ENOENT (filepath this)), log (EvOpenRead (filepath this)) w).
Proof.
  intros Hs Hf. unfold arrayBuffer, open_stream, createReadStream.
  by rewrite Hs, Hf.
Qed.

(** Reading it again gives the same bytes. *)
Lemma arrayBuffer_plain_again this w content :
  slicer this = None →
  files w !! filepath this = Some content →
  ∀ w1, arrayBuffer this w = (Ok content, w1) →
        (arrayBuffer this w1).1 = Ok content.
Proof.
  intros Hs Hf w1 H1. rewrite (arrayBuffer_plain this w content) in H1 by done.
  injection H1 as <-. by rewrite (arrayBuffer_plain this _ content).
Qed.

(** The first read through a transform that has not ended yet. *)
Lemma arrayBuffer_sliced_first this w content ref s :
  slicer this = Some ref →
  slicers w !! ref = Some s →
  sl_ended s = false →
  files w !! filepath this = Some content →
  arrayBuffer this w
  = (Ok (feed s (read_chunks content)).1,
     set_slicers (<[ref := ended (feed s (read_chunks content)).2]> (slicers w))
       (log (EvOpenRead (filepath this)) w)).
Proof.
  intros Hs Hr Hopen Hf. unfold arrayBuffer, open_stream, createReadStream.
  rewrite Hs, Hf. unfold pipe. cbn. rewrite Hr, Hopen.
  by destruct (feed s (read_chunks content)).
Qed.

(** Any read through a transform that has ended fails. *)
Lemma arrayBuffer_sliced_ended this w content ref s :
  slicer this = Some ref →
  slicers w !! ref = Some s →
  sl_ended s = true →
  files w !! filepath this = Some content →
  arrayBuffer this w = (Err WriteAfterEnd, log (EvOpenRead (filepath this)) w).
Proof.
  intros Hs Hr Hended Hf. unfold arrayBuffer, open_stream, createReadStream.
  rewrite Hs, Hf. unfold pipe. cbn. by rewrite Hr, Hended.
Qed.

(** [stream()] delivers the bytes that [arrayBuffer()] collects. *)
Lemma stream_delivers_arrayBuffer this w : stream this w = arrayBuffer this w.
Proof.
  unfold stream, arrayBuffer, readableStreamFromStream.
  by destruct (open_stream this w).
Qed.

(** [slice] allocates its transform at the end of the heap. *)
Lemma slice_result this start end_ contentType w :
  slice h this start end_ contentType w
  = (new_NodeOnDiskFile h (filepath this)
       (default (size this) end_ - default 0 start) (type this)
       (Some (length (slicers w))),
     set_slicers
       (slicers w ++ [fresh_slicer (default 0 start) (default (size this) end_)])
       w).
Proof. unfold slice, streamSlice_slice. by destruct start, end_. Qed.

(** Slicing a file, then reading the slice for the first time, gives what
    the new transform lets through of the backing file, whether or not the
    file that was sliced had a window of its own; [slice] itself touches
    neither the files nor the trace. *)
Lemma slice_then_arrayBuffer this w content start end_ contentType :
  files w !! filepath this = Some content →
  let '(sliced, w1) := slice h this start end_ contentType w in
  (arrayBuffer sliced w1).1
  = Ok (feed (fresh_slicer (default 0 start) (default (size this) end_))
          (read_chunks content)).1
  ∧ files w1 = files w ∧ trace w1 = trace w.
Proof.
  intros Hf. rewrite slice_result. split; [|done].
  erewrite arrayBuffer_sliced_first; [done|done| |done|done].
  cbn. by rewrite lookup_app_r, Nat.sub_diag.
Qed.

End Reading.

Lemma exceeds_dec limit data : {exceeds limit data} + {¬ exceeds limit data}.
Proof.
  revert limit. induction data as [|c data IH]; intros limit.
  - right. intros (k & Hk & _). simpl in Hk. lia.
  - destruct (decide (limit < Z.of_nat (length c))) as [Hc|Hc].
    + left. apply exceeds_cons. by left.
    + destruct (IH (limit - Z.of_nat (length c))) as [Hex|Hex].
      * left. apply exceeds_cons. by right.
      * right. rewrite exceeds_cons. tauto.
Qed.

(** ** The write handle *)

(** C7.  Whenever the handler reaches the copy loop, the run ends either
    resolved or rejected with the size error, and in both cases the calls it
    made on the destination are: open, the writes, one close, and after the
    close at most the removal.  The handle is closed exactly once. *)
Theorem write_handle_closed_once (h : host) opts fuel part w p w1 :
  choose_filepath h (with_defaults h opts) fuel part w = Some (Some p, w1) →
  ∃ (w' : world) (written : list chunk) (removed : bool),
    (if removed
     then createFileUploadHandler h opts fuel part w
          = Rejected (MeterError (part_name part) (r_maxFileSize (with_defaults h opts))) w'
     else ∃ stored, createFileUploadHandler h opts fuel part w = Resolved (Some stored) w')
    ∧ (removed = true ↔ exceeds (r_maxFileSize (with_defaults h opts)) (part_data part))
    ∧ trace w' = trace w1 ++ store_events h p written removed
    ∧ close_count p (store_events h p written removed) = 1%nat.
Proof.
  intros Hpath.
  destruct (exceeds_dec (r_maxFileSize (with_defaults h opts)) (part_data part)) as [Hex|Hin].
  - destruct (first_crossing _ _ Hex) as (pre & c & post & Hdata & Hpre & Hcross).
    destruct (store_at_crossing_world h _ part p w1 pre c post Hdata Hpre Hcross)
      as (w' & Hrun & Htrace & _).
    exists w', pre, true. split; [|split; [|split]].
    + by rewrite (handler_store h opts fuel part w p w1 Hpath).
    + done.
    + exact Htrace.
    + apply close_count_store_events.
  - eexists. exists (part_data part), false. split; [|split; [|split]].
    + eexists. rewrite (handler_store h opts fuel part w p w1 Hpath).
      apply (store_at_within h _ part p w1 Hin).
    + split; [done|]. intros Hex. by destruct Hin.
    + done.
    + apply close_count_store_events.
Qed.

(** ** Skipped parts *)

(** C5.  When the configured filter returns false, or the directory
    resolver or the file resolver yields nothing (undefined, or the empty
    string, which the handler treats alike), the handler resolves with
    [undefined] and the world is left exactly as it was: no file is
    created and no filesystem call is made. *)
Theorem skipped_part_touches_nothing (h : host) opts fuel part w :
  (∃ flt, filter opts = Some flt
          ∧ flt (FilterArgs (part_filename part) (part_contentType part) (part_name part))
            = false)
  ∨ (∃ dir, directory opts = Some (PathResolver dir)
            ∧ truthy (dir (ResolverArgs (part_filename part) (part_contentType part)
                             (part_name part))) = false)
  ∨ (∃ fl, file opts = Some (PathResolver fl)
           ∧ truthy (fl (ResolverArgs (part_filename part) (part_contentType part)
                           (part_name part))) = false) →
  createFileUploadHandler h opts fuel part w = Resolved None w.
Proof.
  intros Hskip. unfold createFileUploadHandler, choose_filepath, with_defaults. cbn.
  destruct (filter opts) as [flt|] eqn:Hflt.
  - destruct (flt _) eqn:Hacc; cbn; [|done].
    destruct Hskip as [(flt' & [= <-] & Hrej)|Hskip]; [congruence|].
    destruct (truthy _) eqn:Hdir in |- *; cbn; [|done].
    destruct Hskip as [(dir & Hd & Hno)|(fl & Hf & Hno)].
    + rewrite Hd in Hdir. congruence.
    + rewrite Hf. by rewrite Hno.
  - cbn. destruct Hskip as [(flt' & [=] & _)|Hskip].
    destruct (truthy _) eqn:Hdir in |- *; cbn; [|done].
    destruct Hskip as [(dir & Hd & Hno)|(fl & Hf & Hno)].
    + rewrite Hd in Hdir. congruence.
    + rewrite Hf. by rewrite Hno.
Qed.

(** ** [NodeOnDiskFile]: text, slice *)

(** C8.  [text()] gives what [arrayBuffer()] gives, decoded with the default
    text encoding, and leaves the same world behind; a failing read fails
    in the same way. *)
Theorem text_is_decoded_arrayBuffer (h : host) this w :
  text h this w = (result_map (decode h) (arrayBuffer this w).1, (arrayBuffer this w).2).
Proof.
  unfold text, arrayBuffer, readableStreamToString, readableStreamFromStream.
  by destruct (open_stream this w).
Qed.

(** C9.  The [contentType] argument of [slice] is ignored: whatever is
    passed, the result is the one obtained without it; its [type] is the
    type of the original, it has the same backing path, and its name is
    again the base name of that path. *)
Theorem slice_ignores_contentType (h : host) this start end_ contentType w :
  slice h this start end_ contentType w = slice h this start end_ None w
  ∧ type (slice h this start end_ contentType w).1 = type this
  ∧ filepath (slice h this start end_ contentType w).1 = filepath this
  ∧ name (slice h this start end_ contentType w).1 = basename h (filepath this).
Proof. by rewrite !slice_result. Qed.

(** C10.  [slice] does not normalise its arguments: with [start] and [end]
    given, the [size] of the result is [end - start], whatever their order,
    sign or relation to the size of the file.  The size can be negative,
    and it can exceed the number of bytes that reading the slice yields. *)
Theorem slice_size_is_difference (h : host) :
  (∀ this (start end_ : Z) contentType w,
     size (slice h this (Some start) (Some end_) contentType w).1 = end_ - start)
  ∧ (∃ this start end_ w,
       size (slice h this (Some start) (Some end_) None w).1 < 0)
  ∧ (∃ this start end_ w read,
       (let '(sliced, w1) := slice h this (Some start) (Some end_) None w in
        (arrayBuffer sliced w1).1) = Ok read
       ∧ Z.of_nat (length read) < size (slice h this (Some start) (Some end_) None w).1).
Proof.
  split; [|split].
  - intros. by rewrite slice_result.
  - exists (new_NodeOnDiskFile h "/tmp/a" 3 "text/plain" None), 3, 1, empty_world.
    rewrite slice_result. cbn. lia.
  - exists (new_NodeOnDiskFile h "/tmp/a" 3 "text/plain" None), 0, 10,
      (set_files {["/tmp/a" := [x01; x02; x03]]} empty_world), [x01; x02; x03].
    split; [|rewrite slice_result; cbn; lia].
    pose proof (slice_then_arrayBuffer h
      (new_NodeOnDiskFile h "/tmp/a" 3 "text/plain" None)
      (set_files {["/tmp/a" := [x01; x02; x03]]} empty_world)
      [x01; x02; x03] (Some 0) (Some 10) None) as Hread.
    destruct (slice h _ _ _ _ _) as [sliced w1].
    destruct Hread as [Hread _]; [by apply lookup_insert_eq|]. rewrite Hread.
    cbn [default from_option id]. by rewrite fresh_slicer_range by lia.
Qed.

(** ** Conflict avoidance: [uniqueFile] *)

Section UniqueFile.
Context (h : host).

Lemma uniqueFile_loop_free fuel fp ext cur w :
  files w !! cur = None →
  uniqueFile_loop h (S fuel) fp ext cur w = Some (cur, log (EvStat cur) w).
Proof.
  intros Hfree. cbn [uniqueFile_loop]. unfold stat. rewrite Hfree.
  rewrite bool_decide_false; [done|]. by intros [? ?].
Qed.

Lemma uniqueFile_loop_taken fuel fp cur w :
  is_Some (files w !! cur) →
  uniqueFile_loop h (S fuel) fp (extname h fp) cur w
  = uniqueFile_loop h fuel fp (extname h fp)
      (stamped h fp (clock h (ticks w)))
      (getTime h (log (EvStat cur) w)).2.
Proof.
  intros Htaken. cbn [uniqueFile_loop]. unfold stat.
  by rewrite bool_decide_true.
Qed.

(** Whatever the loop returns is a path at which no file exists; the
    files, the stream heap and the random source are untouched. *)
Lemma uniqueFile_loop_sound fuel fp cur w p w' :
  uniqueFile_loop h fuel fp (extname h fp) cur w = Some (p, w') →
  files w' = files w ∧ slicers w' = slicers w ∧ draws w' = draws w
  ∧ files w !! p = None
  ∧ (p = cur ∨ ∃ now, p = stamped h fp now).
Proof.
  revert cur w. induction fuel as [|fuel IH]; intros cur w Hrun; [done|].
  destruct (files w !! cur) as [content|] eqn:Hcur.
  - rewrite uniqueFile_loop_taken in Hrun by (by rewrite Hcur).
    apply IH in Hrun as (Hf & Hs & Hd & Hp & Hshape).
    cbn in Hf, Hs, Hd, Hp. repeat (split; [done|]).
    right. destruct Hshape as [->|Hshape]; [by eexists|done].
  - rewrite uniqueFile_loop_free in Hrun by done.
    injection Hrun as <- <-. cbn. repeat (split; [done|]). by left.
Qed.

(** The loop ends at the first stamped candidate that is free: if the
    candidate and the stamped names of the first [k] clock readings are
    taken and the one of reading [k] is free, [k + 2] probes suffice. *)
Lemma uniqueFile_loop_probe fp k :
  ∀ fuel cur w,
    is_Some (files w !! cur) →
    (∀ i, (i < k)%nat → is_Some (files w !! stamped h fp (clock h (ticks w + i)))) →
    files w !! stamped h fp (clock h (ticks w + k)) = None →
    (k + 2 ≤ fuel)%nat →
    ∃ w', uniqueFile_loop h fuel fp (extname h fp) cur w
          = Some (stamped h fp (clock h (ticks w + k)), w')
          ∧ files w' = files w.
Proof.
  induction k as [|k IH]; intros fuel cur w Hcur Htaken Hfree Hfuel.
  - destruct fuel as [|[|fuel]]; [lia|lia|].
    rewrite uniqueFile_loop_taken by done.
    rewrite Nat.add_0_r in *.
    rewrite uniqueFile_loop_free by exact Hfree. by eexists.
  - destruct fuel as [|fuel]; [lia|].
    rewrite uniqueFile_loop_taken by done.
    destruct (IH fuel (stamped h fp (clock h (ticks w)))
                (getTime h (log (EvStat cur) w)).2) as (w' & Hrun & Hfiles).
    + change (is_Some (files w !! stamped h fp (clock h (ticks w)))).
      specialize (Htaken 0%nat). rewrite Nat.add_0_r in Htaken.
      apply Htaken. lia.
    + intros i Hi.
      change (is_Some (files w !! stamped h fp (clock h (S (ticks w) + i)))).
      replace (S (ticks w) + i)%nat with (ticks w + S i)%nat by lia.
      apply Htaken. lia.
    + change (files w !! stamped h fp (clock h (S (ticks w) + k)) = None).
      by replace (S (ticks w) + k)%nat with (ticks w + S k)%nat by lia.
    + lia.
    + exists w'. split; [|exact Hfiles]. rewrite Hrun.
      change (ticks (getTime h (log (EvStat cur) w)).2) with (S (ticks w)).
      by replace (S (ticks w) + k)%nat with (ticks w + S k)%nat by lia.
Qed.

(** A run that ends within some fuel ends in the same way with more. *)
Lemma uniqueFile_loop_more_fuel fuel fuel' fp ext cur w r :
  (fuel ≤ fuel')%nat →
  uniqueFile_loop h fuel fp ext cur w = Some r →
  uniqueFile_loop h fuel' fp ext cur w = Some r.
Proof.
  revert fuel' cur w. induction fuel as [|fuel IH]; intros fuel' cur w Hle Hrun; [done|].
  destruct fuel' as [|fuel']; [lia|]. cbn [uniqueFile_loop] in *.
  destruct (stat cur w) as [[] w1]; [|done].
  destruct (getTime h w1) as [now w2]. apply IH; [lia|done].
Qed.

End UniqueFile.

(** ** Conflict avoidance: the handler *)

(** Every path through the first phase of the handler. *)
Ltac choose_filepath_cases :=
  unfold choose_filepath, uniqueFile in *; repeat case_match; simplify_eq.

Section Conflicts.
Context (h : host).

(** The first phase of the handler never changes a file. *)
Lemma choose_filepath_files o fuel part w r w1 :
  choose_filepath h o fuel part w = Some (r, w1) → files w1 = files w.
Proof.
  intros Hc. choose_filepath_cases; try done;
    repeat match goal with
    | H : uniqueFile_loop _ _ _ _ _ _ = Some _ |- _ =>
      apply uniqueFile_loop_sound in H as (-> & _)
    | H : defaultFilePathResolver _ _ _ = _ |- _ =>
      apply (f_equal snd) in H; cbn in H; subst
    end; done.
Qed.

(** With conflict avoidance on, the path it yields is free. *)
Lemma choose_filepath_fresh o fuel part w p w1 :
  r_avoidFileConflicts o = true →
  choose_filepath h o fuel part w = Some (Some p, w1) →
  files w !! p = None.
Proof.
  intros Havoid Hc. unfold choose_filepath in Hc. rewrite Havoid in Hc.
  choose_filepath_cases;
    repeat match goal with
    | H : uniqueFile_loop _ _ _ _ _ _ = Some _ |- _ =>
      apply uniqueFile_loop_sound in H as (_ & _ & _ & H & _)
    | H : defaultFilePathResolver _ _ _ = _ |- _ =>
      apply (f_equal snd) in H; cbn in H; subst
    end; done.
Qed.

End Conflicts.

(** ** Conflict avoidance: the probe loop comes to an end *)

Lemma string_length_app (s1 s2 : string) :
  String.length (s1 +:+ s2) = (String.length s1 + String.length s2)%nat.
Proof. induction s1 as [|a s1 IH]; simpl; [done|]. by rewrite IH. Qed.

Lemma string_app_inv_tail (x y e : string) : x +:+ e = y +:+ e → x = y.
Proof.
  revert y. induction x as [|a x IH]; intros [|b y] Heq; simpl in Heq.
  - done.
  - apply (f_equal String.length) in Heq. simpl in Heq.
    rewrite !string_length_app in Heq. simpl in Heq. lia.
  - apply (f_equal String.length) in Heq. simpl in Heq.
    rewrite !string_length_app in Heq. simpl in Heq. lia.
  - injection Heq as -> Heq. f_equal. by apply IH.
Qed.

Lemma string_app_empty_r (s : string) : s +:+ "" = s.
Proof.
  induction s as [|a s IH]; [done|].
  change (String a (s +:+ "") = String a s). by rewrite IH.
Qed.

Lemma substring_app_prefix (stem rest : string) :
  String.substring 0 (String.length stem) (stem +:+ rest) = stem.
Proof.
  induction stem as [|a stem IH].
  - by destruct rest.
  - change (String a (String.substring 0 (String.length stem) (stem +:+ rest))
            = String a stem).
    by rewrite IH.
Qed.

Lemma slice_off_end_app (stem ext : string) :
  slice_off_end (stem +:+ ext) (String.length ext) = stem.
Proof.
  unfold slice_off_end. rewrite string_length_app.
  replace (String.length stem + String.length ext - String.length ext)%nat
    with (String.length stem) by lia.
  apply substring_app_prefix.
Qed.

Section Progress.
Context (h : host).

(** When the path ends in its extension, the stamped name is the path with
    "-" and the clock reading inserted right before the extension. *)
Lemma stamped_before_extension fp stem now :
  fp = stem +:+ extname h fp →
  stamped h fp now = stem +:+ "-" +:+ pretty now +:+ extname h fp.
Proof.
  intros Hfp. unfold stamped. remember (extname h fp) as ext eqn:Hext.
  clear Hext. subst fp.
  destruct (String.eqb_spec ext "") as [->|Hne].
  - by rewrite string_app_empty_r.
  - by rewrite slice_off_end_app.
Qed.

(** Different clock readings give different stamped names. *)
Lemma stamped_inj fp t1 t2 : stamped h fp t1 = stamped h fp t2 → t1 = t2.
Proof.
  unfold stamped. intros Heq.
  apply (inj (String.app _)) in Heq. apply (inj (String.app _)) in Heq.
  apply string_app_inv_tail in Heq. by apply (inj pretty) in Heq.
Qed.

(** Among the stamped names of the next [n + 1] clock readings, either
    there is a first one that is free, or all of them are taken. *)
Lemma first_free_stamp (m : gmap string (list byte)) fp t0 n :
  (∃ k, (k ≤ n)%nat
        ∧ m !! stamped h fp (clock h (t0 + k)) = None
        ∧ ∀ i, (i < k)%nat → is_Some (m !! stamped h fp (clock h (t0 + i))))
  ∨ (∀ k, (k ≤ n)%nat → is_Some (m !! stamped h fp (clock h (t0 + k)))).
Proof.
  induction n as [|n IH].
  - destruct (m !! stamped h fp (clock h (t0 + 0))) as [c|] eqn:H0.
    + right. intros k Hk. replace k with 0%nat by lia. by rewrite H0.
    + left. exists 0%nat. split; [lia|]. split; [done|]. intros i Hi. lia.
  - destruct IH as [(k & Hk & Hfree & Hbefore)|Hall].
    + left. exists k. split; [lia|done].
    + destruct (m !! stamped h fp (clock h (t0 + S n))) as [c|] eqn:Hn.
      * right. intros k Hk. destruct (decide (k = S n)) as [->|Hne].
        -- by rewrite Hn.
        -- apply Hall. lia.
      * left. exists (S n). split; [lia|]. split; [done|].
        intros i Hi. apply Hall. lia.
Qed.

(** A clock that advances shows any number of different times from any
    reading on. *)
Lemma distinct_readings (f : nat → Z) i0 n :
  advances f →
  ∃ l : list nat,
    length l = n ∧ NoDup (f <$> l) ∧ ∀ j, j ∈ l → (i0 ≤ j)%nat.
Proof.
  intros Hadv.
  cut (∃ (l : list nat) (top : Z),
         length l = n ∧ NoDup (f <$> l) ∧ ∀ j, j ∈ l → (i0 ≤ j)%nat ∧ f j ≤ top).
  { intros (l & top & Hlen & Hnd & Hl). exists l. split; [done|]. split; [done|].
    intros j Hj. by apply Hl. }
  induction n as [|n (l & top & Hlen & Hnd & Hl)].
  - exists [], 0. split; [done|]. split; [constructor|]. by intros j Hj%elem_of_nil.
  - destruct (Hadv i0 top) as (j & Hj & Htop).
    exists (j :: l), (f j). split; [simpl; lia|]. split.
    + cbn. constructor; [|done]. intros Hin.
      apply list_elem_of_fmap in Hin as (j' & Heq & Hj').
      destruct (Hl j' Hj') as [_ Hle]. lia.
    + intros j' Hj'. apply elem_of_cons in Hj' as [->|Hj'].
      * split; [done|lia].
      * destruct (Hl j' Hj') as [Hi0 Hle]. split; [done|lia].
Qed.

(** A finite filesystem does not hold the stamped names of all the times
    an advancing clock will show. *)
Lemma free_stamp_exists (m : gmap string (list byte)) fp t0 :
  advances (clock h) →
  ∃ k, m !! stamped h fp (clock h (t0 + k)) = None.
Proof.
  intros Hadv.
  destruct (distinct_readings (clock h) t0 (S (base.size m)) Hadv)
    as (l & Hlen & Hnd & Hl).
  destruct (decide (Forall (λ j, is_Some (m !! stamped h fp (clock h j))) l))
    as [Hall|Hex].
  - exfalso.
    assert ((λ j, stamped h fp (clock h j)) <$> l ⊆+ elements (dom m)) as Hsub.
    { apply NoDup_submseteq.
      - rewrite (list_fmap_compose (clock h) (stamped h fp)).
        apply NoDup_fmap_2; [|done]. intros t1 t2. apply stamped_inj.
      - intros x Hx. apply list_elem_of_fmap in Hx as (j & -> & Hj).
        apply elem_of_elements, elem_of_dom.
        rewrite Forall_forall in Hall. by apply Hall. }
    apply submseteq_length in Hsub. rewrite length_fmap, Hlen in Hsub.
    change (length (elements (dom m))) with (base.size (dom m)) in Hsub.
    rewrite size_dom in Hsub. lia.
  - apply not_Forall_Exists in Hex; [|apply _].
    apply Exists_exists in Hex as (j & Hj & Hfree).
    exists (j - t0)%nat. replace (t0 + (j - t0))%nat with j by (specialize (Hl j Hj); lia).
    unfold compose in Hfree.
    destruct (m !! stamped h fp (clock h j)); [|done].
    exfalso. apply Hfree. by eexists.
Qed.

(** With a clock that advances, [uniqueFile] returns. *)
Lemma uniqueFile_ends fp w :
  advances (clock h) →
  ∃ fuel p w1, uniqueFile h fuel fp w = Some (p, w1).
Proof.
  intros Hadv. unfold uniqueFile.
  destruct (files w !! fp) as [c|] eqn:Hfp.
  - destruct (free_stamp_exists (files w) fp (ticks w) Hadv) as (j & Hj).
    destruct (first_free_stamp (files w) fp (ticks w) j)
      as [(k & Hk & Hfree & Hbefore)|Hall].
    + destruct (uniqueFile_loop_probe h fp k (k + 2) fp w) as (w' & Hrun & _);
        [by rewrite Hfp|done|done|lia|].
      by eexists _, _, _.
    + specialize (Hall j ltac:(lia)). rewrite Hj in Hall. by destruct Hall.
  - exists 1%nat. rewrite uniqueFile_loop_free by done. by eexists _, _.
Qed.

End Progress.

(** ** Conflict avoidance: repeated uploads *)

(** The name made by [defaultFilePathResolver] is never empty. *)
Lemma upload_name_nonempty (rest : string) :
  String.eqb ("upload_" +:+ rest) "" = false.
Proof. reflexivity. Qed.

Section Repeated.
Context (h : host).

(** For a part that is not skipped, the first phase computes a candidate
    path without touching the files, and hands it to [uniqueFile] when
    conflict avoidance is on. *)
Lemma choose_filepath_accepted opts part w :
  accepted h opts part →
  ∃ cand w0,
    files w0 = files w
    ∧ ∀ fuel,
        choose_filepath h (with_defaults h opts) fuel part w
        = if r_avoidFileConflicts (with_defaults h opts)
          then match uniqueFile h fuel cand w0 with
               | Some (p, w1) => Some (Some p, w1)
               | None => None
               end
          else Some (Some cand, w0).
Proof.
  intros (Hflt & Hdir & Hfile). unfold choose_filepath.
  cbn [with_defaults r_filter r_directory r_file r_avoidFileConflicts].
  assert (match filter opts with
          | Some flt => negb (flt (FilterArgs (part_filename part)
                                     (part_contentType part) (part_name part)))
          | None => false
          end = false) as ->.
  { destruct (filter opts) as [flt|]; [|done]. by rewrite (Hflt flt eq_refl). }
  set (dir := match match directory opts with
                    | Some d => d
                    | None => PathString (tmpdir h)
                    end with
              | PathString s => Some s
              | PathResolver r => r _
              end).
  assert (truthy dir = true) as ->.
  { subst dir. by destruct (directory opts) as [[s|r]|]. }
  cbn [negb].
  destruct (file opts) as [[s|fl]|].
  - rewrite (Hfile _ eq_refl). cbn [negb].
    eexists _, _. split; [|intros fuel; reflexivity]. reflexivity.
  - rewrite (Hfile _ eq_refl). cbn [negb].
    eexists _, _. split; [|intros fuel; reflexivity]. reflexivity.
  - unfold defaultFilePathResolver, randomUInt32, truthy.
    rewrite upload_name_nonempty. cbn [negb].
    eexists _, _. split; [|intros fuel; reflexivity]. reflexivity.
Qed.

(** More fuel does not change a run of the first phase that ended. *)
Lemma choose_filepath_more_fuel o fuel fuel' part w r :
  (fuel ≤ fuel')%nat →
  choose_filepath h o fuel part w = Some r →
  choose_filepath h o fuel' part w = Some r.
Proof.
  intros Hle Hc. revert Hc. choose_filepath_cases; intros Hc; simplify_eq; try done;
    repeat match goal with
    | H : uniqueFile_loop _ fuel _ _ _ _ = Some _ |- _ =>
      apply (uniqueFile_loop_more_fuel h fuel fuel' _ _ _ _ _ Hle) in H
    end; congruence.
Qed.

(** Nor a run of the handler that resolved. *)
Lemma handler_more_fuel opts fuel fuel' part w r w' :
  (fuel ≤ fuel')%nat →
  createFileUploadHandler h opts fuel part w = Resolved r w' →
  createFileUploadHandler h opts fuel' part w = Resolved r w'.
Proof.
  intros Hle. unfold createFileUploadHandler.
  destruct (choose_filepath h _ fuel part w) as [res|] eqn:Hc; [|done].
  by rewrite (choose_filepath_more_fuel _ fuel fuel' part w res Hle Hc).
Qed.

End Repeated.

(** ** The pending operations of a write stream *)

Lemma run_ops_S_r k s d :
  run_ops (S k) s d = run_ops k (run_op s d).1 (run_op s d).2.
Proof. unfold run_ops. rewrite Nat.iter_succ_r. cbn [fst snd]. by destruct (run_op s d). Qed.

(** [k] operations of one stream change that stream and the disk only. *)
Lemma background_replicate k ws w s :
  writers w !! ws = Some s →
  background (replicate k ws) w
  = World (run_ops k s (files w)).2 (slicers w)
      (<[ws := (run_ops k s (files w)).1]> (writers w)) (trace w) (ticks w) (draws w).
Proof.
  revert w s. induction k as [|k IH]; intros w s Hs.
  - cbn. rewrite list_insert_id by done. by rewrite world_eta.
  - assert (ws < length (writers w))%nat as Hlt by (by eapply lookup_lt_Some).
    cbn [replicate]. rewrite background_cons, (step_stream_unfold ws w s Hs).
    rewrite (IH _ (run_op s (files w)).1) by (cbn; by apply list_lookup_insert_eq).
    cbn [files slicers writers trace ticks draws].
    by rewrite list_insert_insert_eq, run_ops_S_r.
Qed.

(** Writing at the end of a file appends. *)
Lemma write_at_end c content : write_at (length content) c content = content ++ c.
Proof.
  unfold write_at. rewrite Nat.sub_diag. cbn.
  by rewrite app_nil_r, firstn_all, drop_ge, app_nil_r by lia.
Qed.

(** The stream the handler leaves behind opens its file, then writes its
    chunks one after the other, ... *)
Lemma run_ops_handed_over p cs d j :
  (j ≤ length cs)%nat →
  run_ops (S j) (handed_over p cs) d
  = (MkWriteStream p (Opened (length (concat (take j cs))) true) (drop j cs) true,
     <[p := concat (take j cs)]> d).
Proof.
  induction j as [|j IH]; intros Hj; [done|].
  change (run_ops (S (S j)) (handed_over p cs) d)
    with (run_op (run_ops (S j) (handed_over p cs) d).1
            (run_ops (S j) (handed_over p cs) d).2).
  rewrite IH by lia. cbn [fst snd].
  destruct (lookup_lt_is_Some_2 cs j ltac:(lia)) as [c Hc].
  rewrite (drop_S cs c j Hc), (take_S_r cs j c Hc).
  unfold run_op. cbn. rewrite alter_insert_eq, write_at_end.
  by rewrite concat_app, length_app; cbn; rewrite !app_nil_r.
Qed.

(** ... and then closes it. *)
Lemma run_ops_handed_over_done p cs d k :
  (pending_ops (handed_over p cs) ≤ k)%nat →
  run_ops k (handed_over p cs) d
  = (MkWriteStream p Closed [] true, <[p := concat cs]> d).
Proof.
  cbn [pending_ops handed_over ws_fd ws_queue ws_ending]. intros Hk.
  replace k with (k - (S (S (length cs))) + S (S (length cs)))%nat by lia.
  generalize (k - S (S (length cs)))%nat as extra. clear k Hk.
  induction extra as [|extra IH].
  - change (run_ops (0 + S (S (length cs))) (handed_over p cs) d)
      with (run_op (run_ops (S (length cs)) (handed_over p cs) d).1
              (run_ops (S (length cs)) (handed_over p cs) d).2).
    rewrite run_ops_handed_over by lia. cbn [fst snd].
    by rewrite drop_all, firstn_all.
  - change (run_ops (S extra + S (S (length cs))) (handed_over p cs) d)
      with (run_op (run_ops (extra + S (S (length cs))) (handed_over p cs) d).1
              (run_ops (extra + S (S (length cs))) (handed_over p cs) d).2).
    by rewrite IH.
Qed.

(** A stream whose file has been removed, or that is closed, changes no
    file any more. *)
Lemma run_ops_unlinked k s d :
  ws_fd s = Closed ∨ (∃ pos, ws_fd s = Opened pos false) →
  (run_ops k s d).2 = d.
Proof.
  revert s. induction k as [|k IH]; intros s Hs; [done|].
  rewrite run_ops_S_r.
  assert ((run_op s d).2 = d
          ∧ (ws_fd (run_op s d).1 = Closed
             ∨ ∃ pos, ws_fd (run_op s d).1 = Opened pos false)) as [Hd Hs'].
  { unfold run_op. destruct Hs as [Hs|[pos Hs]]; rewrite Hs; [by split; [|left]|].
    destruct (ws_queue s) as [|c rest]; [destruct (ws_ending s)|]; cbn;
      (split; [done|]); eauto. }
  rewrite Hd. by apply IH.
Qed.

(** Removing a file leaves the number of pending operations of every
    stream as it was. *)
Lemma pending_ops_unlinked p s : pending_ops (unlinked p s) = pending_ops s.
Proof.
  destruct s as [path [|pos []|] queue ending]; try done.
  unfold unlinked. cbn. by case_bool_decide.
Qed.

(** Streams with nothing pending are passed over by [settle]. *)
Lemma settle_idle w ids :
  (∀ i, i ∈ ids → from_option pending_ops 0%nat (writers w !! i) = 0%nat) →
  foldl (λ w ws,
           background (replicate (from_option pending_ops 0%nat (writers w !! ws)) ws) w)
    w ids = w.
Proof.
  induction ids as [|i ids IH]; intros Hidle; [done|].
  cbn [foldl]. rewrite (Hidle i) by left. cbn [replicate]. rewrite background_nil.
  apply IH. intros j Hj. apply Hidle. by right.
Qed.

(** When only the youngest stream has something pending, [settle] carries
    out its operations. *)
Lemma settle_last w olds s :
  writers w = olds ++ [s] →
  Forall (λ s, pending_ops s = 0%nat) olds →
  settle w = background (replicate (pending_ops s) (length olds)) w.
Proof.
  intros Hw Holds. unfold settle. rewrite Hw, length_app. cbn [length].
  rewrite Nat.add_1_r, seq_S, foldl_app. cbn [foldl].
  rewrite settle_idle.
  - by rewrite Hw, lookup_app_r, Nat.sub_diag.
  - intros i Hi. apply elem_of_seq in Hi as [_ Hi]. rewrite Hw, lookup_app_l by lia.
    destruct (lookup_lt_is_Some_2 olds i ltac:(lia)) as [si Hsi]. rewrite Hsi. cbn.
    by apply (Forall_lookup_1 _ _ _ _ Holds Hsi).
Qed.

Lemma settle_last_world w olds s :
  writers w = olds ++ [s] →
  Forall (λ s, pending_ops s = 0%nat) olds →
  settle w
  = World (run_ops (pending_ops s) s (files w)).2 (slicers w)
      (olds ++ [(run_ops (pending_ops s) s (files w)).1]) (trace w) (ticks w) (draws w).
Proof.
  intros Hw Holds. rewrite (settle_last w olds s Hw Holds).
  rewrite (background_replicate _ _ w s) by (by rewrite Hw, lookup_app_r, Nat.sub_diag).
  by rewrite Hw, insert_app_r_alt, Nat.sub_diag by lia.
Qed.

(** [settle] touches neither the trace, nor the transforms, nor the clock,
    nor the random source. *)
Lemma settle_rest w :
  trace (settle w) = trace w ∧ slicers (settle w) = slicers w
  ∧ ticks (settle w) = ticks w ∧ draws (settle w) = draws w.
Proof.
  unfold settle. generalize (seq 0 (length (writers w))) as ids. intros ids.
  revert w. induction ids as [|i ids IH]; intros w; [done|].
  cbn [foldl]. destruct (IH (background (replicate
    (from_option pending_ops 0%nat (writers w !! i)) i) w)) as (-> & -> & -> & ->).
  destruct (background_rest (replicate (from_option pending_ops 0%nat (writers w !! i)) i) w)
    as (-> & -> & -> & -> & _). done.
Qed.

(** ** The write phase, once the stream has done its work *)

Section Settled.
Context (h : host).

(** Within the limit: once the pending operations are carried out, the
    destination holds the streamed bytes and the stream is closed. *)
Lemma store_at_settled o part p w :
  ¬ exceeds (r_maxFileSize o) (part_data part) →
  quiescent w →
  ∃ w',
    store_at h o part p w
    = Resolved
        (Some (new_NodeOnDiskFile h p (total_bytes (part_data part))
                 (part_contentType part) None)) w'
    ∧ files w' = files w
    ∧ settle w'
      = World (<[p := concat (part_data part)]> (files w)) (slicers w)
          (writers w ++ [MkWriteStream p Closed [] true])
          (trace w ++ store_events h p (part_data part) false) (ticks w) (draws w).
Proof.
  intros Hin Hquiet. rewrite (store_at_within h o part p w Hin).
  eexists. split; [reflexivity|]. split; [reflexivity|].
  rewrite (settle_last_world _ (writers w) (handed_over p (part_data part)))
    by done.
  by rewrite run_ops_handed_over_done.
Qed.

(** A stream that has opened its file when the file is removed leaves no
    file behind. *)
Lemma unlink_after_open p pre W olds k :
  writers W = olds ++ [handed_over p pre] →
  Forall (λ s, pending_ops s = 0%nat) olds →
  files (settle (log (EvRm p) (unlink p (background (replicate (S k) (length olds)) W)))) !! p
  = None
  ∧ ∀ q, q ≠ p →
      files (settle (log (EvRm p) (unlink p (background (replicate (S k) (length olds)) W)))) !! q
      = files W !! q.
Proof.
  intros Hw Hquiet.
  assert (writers W !! length olds = Some (handed_over p pre)) as Hown.
  { by rewrite Hw, lookup_app_r, Nat.sub_diag. }
  assert (Forall (λ s, pending_ops s = 0%nat) (unlinked p <$> olds)) as Hquiet'.
  { apply Forall_fmap. eapply Forall_impl; [exact Hquiet|].
    intros s Hs. cbn. by rewrite pending_ops_unlinked. }
  rewrite (background_replicate _ _ W _ Hown).
  set (s1 := (run_ops (S k) (handed_over p pre) (files W)).1).
  set (d1 := (run_ops (S k) (handed_over p pre) (files W)).2).
  assert ((∀ q, q ≠ p → d1 !! q = files W !! q)
          ∧ ws_path s1 = p
          ∧ (ws_fd s1 = Closed ∨ ∃ pos, ws_fd s1 = Opened pos true)) as (Hq & Hpath & Hfd).
  { subst s1 d1. destruct (decide (k ≤ length pre)%nat) as [Hle|Hgt].
    - rewrite run_ops_handed_over by done. cbn.
      split; [intros q Hq; by rewrite lookup_insert_ne|]. split; [done|]. right. by eexists.
    - rewrite run_ops_handed_over_done by (cbn; lia). cbn.
      split; [intros q Hq; by rewrite lookup_insert_ne|]. split; [done|]. by left. }
  unfold unlink, log, set_writers, set_files.
  cbn [files slicers writers trace ticks draws].
  assert (ws_fd (unlinked p s1) = Closed ∨ ∃ pos, ws_fd (unlinked p s1) = Opened pos false)
    as Hfd'.
  { unfold unlinked. destruct Hfd as [Hfd|[pos Hfd]]; rewrite Hfd; [by left|].
    rewrite bool_decide_true by done. right. by eexists. }
  rewrite (settle_last_world _ (unlinked p <$> olds) (unlinked p s1));
    [|cbn; by rewrite Hw, insert_app_r_alt, Nat.sub_diag, fmap_app by lia|done].
  cbn [files]. rewrite run_ops_unlinked by done. cbn [files].
  split; [apply lookup_delete_eq|]. intros q Hq'. rewrite lookup_delete_ne by done.
  by apply Hq.
Qed.

(** Over the limit: whether the part of the upload that was queued stays
    on the disk depends on whether the stream opens its file before [rm]
    is done. *)
Lemma store_at_crossing_settled o part p w pre c post :
  part_data part = pre ++ c :: post →
  ¬ exceeds (r_maxFileSize o) pre →
  r_maxFileSize o < total_bytes pre + Z.of_nat (length c) →
  quiescent w →
  ∃ w',
    store_at h o part p w = Rejected (MeterError (part_name part) (r_maxFileSize o)) w'
    ∧ files (settle w') !! p
      = (if opens_after_rm h (length (writers w)) p w then Some (concat pre) else None)
    ∧ ∀ q, q ≠ p → files (settle w') !! q = files w !! q.
Proof.
  intros Hdata Hpre Hcross Hquiet.
  rewrite (store_at_crossing h o part p w pre c post Hdata Hpre Hcross).
  eexists. split; [reflexivity|].
  set (W := World _ _ _ _ _ _).
  assert (writers W = writers w ++ [handed_over p pre]) as HW by done.
  assert (files W = files w) as HfW by done.
  assert (Forall (λ s, pending_ops s = 0%nat) (unlinked p <$> writers w)) as Hquiet'.
  { apply Forall_fmap. eapply Forall_impl; [exact Hquiet|].
    intros s Hs. cbn. by rewrite pending_ops_unlinked. }
  unfold opens_after_rm.
  destruct (head_start h (length (writers w))) as [|k].
  - cbn [replicate]. rewrite background_nil. unfold rm. rewrite HfW.
    destruct (files w !! p) as [old|] eqn:Hold.
    + destruct (catch_up h (length (writers w))) as [|k'].
      * cbn [replicate]. rewrite background_nil.
        subst W. unfold unlink, log, set_writers, set_files.
        cbn [files slicers writers trace ticks draws] in *.
        rewrite (settle_last_world _ (unlinked p <$> writers w) (handed_over p pre));
          [|cbn; by rewrite fmap_app|done].
        cbn [files]. rewrite run_ops_handed_over_done by done. cbn [snd].
        split; [apply lookup_insert_eq|]. intros q Hq.
        by rewrite lookup_insert_ne, lookup_delete_ne.
      * destruct (unlink_after_open p pre W (writers w) k' HW Hquiet) as [Hp Hq].
        by rewrite <- HfW.
    + subst W. unfold log. cbn [files slicers writers trace ticks draws] in *.
      rewrite (settle_last_world _ (writers w) (handed_over p pre)) by done.
      cbn [files]. rewrite run_ops_handed_over_done by done. cbn [snd].
      split; [apply lookup_insert_eq|]. intros q Hq. by rewrite lookup_insert_ne.
  - set (k' := catch_up h (length (writers w))). unfold rm.
    rewrite <- background_app, <- replicate_add.
    assert (is_Some (files (background (replicate (S k) (length (writers w))) W) !! p))
      as [old ->].
    { rewrite (background_replicate _ _ W (handed_over p pre))
        by (by rewrite HW, lookup_app_r, Nat.sub_diag).
      cbn [files]. destruct (decide (k ≤ length pre)%nat) as [Hle|Hgt].
      - rewrite run_ops_handed_over by done. cbn. by rewrite lookup_insert_eq.
      - rewrite run_ops_handed_over_done by (cbn; lia). cbn. by rewrite lookup_insert_eq. }
    destruct (unlink_after_open p pre W (writers w) (k + k') HW Hquiet) as [Hp Hq].
    by rewrite <- HfW.
Qed.

End Settled.

(** ** The first phase makes no stream *)

Section FirstPhase.
Context (h : host).

Lemma uniqueFile_loop_writers fuel fp ext cur w p w' :
  uniqueFile_loop h fuel fp ext cur w = Some (p, w') → writers w' = writers w.
Proof.
  revert cur w. induction fuel as [|fuel IH]; intros cur w Hrun; [done|].
  cbn [uniqueFile_loop] in Hrun. unfold stat in Hrun.
  destruct (bool_decide _).
  - apply IH in Hrun. exact Hrun.
  - by injection Hrun as <- <-.
Qed.

Lemma choose_filepath_writers o fuel part w r w1 :
  choose_filepath h o fuel part w = Some (r, w1) → writers w1 = writers w.
Proof.
  intros Hc. choose_filepath_cases; try done;
    repeat match goal with
    | H : uniqueFile_loop _ _ _ _ _ _ = Some _ |- _ =>
      apply uniqueFile_loop_writers in H as ->
    | H : defaultFilePathResolver _ _ _ = _ |- _ =>
      apply (f_equal snd) in H; cbn in H; subst
    end; done.
Qed.

End FirstPhase.

(** ** The size limit *)

(** C1.  The handler rejects with the size error and calls [rm], but it
    waits neither for its write stream to open the file nor for it to
    finish.  For the field "avatar" of twelve bytes under a limit of ten,
    handed over from memory: the two chunks before the crossing one are
    queued, the third is not; [rm] looks for the file before Node has opened
    it and finds none; the handler rejects with [MeterError("avatar", 10)];
    then the stream opens the destination and writes the ten queued bytes.
    A file of ten bytes is left at the destination. *)
Theorem size_limit_leaves_partial_file :
  ∃ w',
    createFileUploadHandler sample_host (pic_options 10) 5%nat avatar empty_world
    = Rejected (MeterError "avatar" 10) w'
    ∧ trace w'
      = [EvStat "/srv/app/uploads/pic.png"; EvMkdir "/srv/app/uploads";
         EvOpenWrite "/srv/app/uploads/pic.png";
         EvWrite "/srv/app/uploads/pic.png" [x01; x02; x03; x04; x05];
         EvWrite "/srv/app/uploads/pic.png" [x06; x07; x08; x09; x0a];
         EvClose "/srv/app/uploads/pic.png"; EvRm "/srv/app/uploads/pic.png"]
    ∧ files w' = ∅
    ∧ files (settle w')
      = {["/srv/app/uploads/pic.png" := [x01; x02; x03; x04; x05; x06; x07; x08; x09; x0a]]}.
Proof.
  let run := eval vm_compute in
    (createFileUploadHandler sample_host (pic_options 10) 5%nat avatar empty_world) in
  lazymatch run with Rejected _ ?w' => exists w' end.
  repeat split; vm_compute; reflexivity.
Qed.

(** ** The round trip *)

(** C2.  The handler resolves right after [close()], without waiting for
    the stream to finish.  For the field "avatar" under a limit of a
    hundred: the handle it resolves with has [size] 12, but no file is at
    the destination yet, and [arrayBuffer] called at once rejects with
    ENOENT.  Only after the stream has done its work does [arrayBuffer]
    return the twelve bytes. *)
Theorem upload_resolves_before_file_is_written :
  ∃ stored w',
    createFileUploadHandler sample_host (pic_options 100) 5%nat avatar empty_world
    = Resolved (Some stored) w'
    ∧ size stored = 12
    ∧ filepath stored = "/srv/app/uploads/pic.png"
    ∧ files w' !! "/srv/app/uploads/pic.png" = None
    ∧ (arrayBuffer stored w').1 = Err (ENOENT "/srv/app/uploads/pic.png")
    ∧ (arrayBuffer stored (settle w')).1 = Ok (concat (part_data avatar)).
Proof.
  let run := eval vm_compute in
    (createFileUploadHandler sample_host (pic_options 100) 5%nat avatar empty_world) in
  lazymatch run with Resolved (Some ?stored) ?w' => exists stored, w' end.
  repeat split; vm_compute; reflexivity.
Qed.

(** ** Conflict avoidance: the statement *)

(** C4.  [uniqueFile] probes the disk, but the file is made later, by the
    write stream, and the handler resolves before that.  The field "avatar"
    uploaded three times to ./uploads/pic.png with conflict avoidance on,
    each upload awaited before the next one starts: when the second upload
    probes, the stream of the first has not opened its file yet, so both
    resolve with the same path; the third finds the file and takes a stamped
    name.  Three uploads leave two files. *)
Theorem awaited_uploads_share_a_path :
  let handler := createFileUploadHandler sample_host (pic_options 100) in
  ∃ first w1 second w2 third w3,
    handler 5%nat avatar empty_world = Resolved (Some first) w1
    ∧ handler 5%nat avatar w1 = Resolved (Some second) w2
    ∧ handler 5%nat avatar (settle w2) = Resolved (Some third) w3
    ∧ filepath first = "/srv/app/uploads/pic.png"
    ∧ filepath second = "/srv/app/uploads/pic.png"
    ∧ filepath third = "/srv/app/uploads/pic-1700000000000.png"
    ∧ dom (files (settle w3))
      = {["/srv/app/uploads/pic.png"; "/srv/app/uploads/pic-1700000000000.png"]}
    ∧ base.size (files (settle w3)) = 2%nat.
Proof.
  intros handler. subst handler.
  let run1 := eval vm_compute in
    (createFileUploadHandler sample_host (pic_options 100) 5%nat avatar empty_world) in
  lazymatch run1 with
  | Resolved (Some ?first) ?w1 =>
    let run2 := eval vm_compute in
      (createFileUploadHandler sample_host (pic_options 100) 5%nat avatar w1) in
    lazymatch run2 with
    | Resolved (Some ?second) ?w2 =>
      let run3 := eval vm_compute in
        (createFileUploadHandler sample_host (pic_options 100) 5%nat avatar
           (settle w2)) in
      lazymatch run3 with
      | Resolved (Some ?third) ?w3 => exists first, w1, second, w2, third, w3
      end
    end
  end.
  repeat split; vm_compute; reflexivity.
Qed.

(** ** Slices of slices, and reading twice *)

(** Slicing a file whose [size] is the length of its backing file, with
    [0 <= start <= end <= size] and [0 < end]: the slice has size
    [end - start], shares
    the path, and its first read gives the bytes [start, end); nothing is
    read or written by [slice] itself. *)
Lemma slice_of_stored_file (h : host) this w content (start end_ : Z) contentType :
  files w !! filepath this = Some content →
  size this = Z.of_nat (length content) →
  0 ≤ start → start ≤ end_ → 0 < end_ → end_ ≤ size this →
  let '(sliced, w1) := slice h this (Some start) (Some end_) contentType w in
  size sliced = end_ - start
  ∧ filepath sliced = filepath this
  ∧ files w1 = files w ∧ trace w1 = trace w
  ∧ (arrayBuffer sliced w1).1
    = Ok (take (Z.to_nat end_ - Z.to_nat start) (drop (Z.to_nat start) content)).
Proof.
  intros Hf Hsize H0 Hse Hend He.
  pose proof (slice_then_arrayBuffer h this w content (Some start) (Some end_)
                contentType Hf) as Hread.
  rewrite slice_result in *. destruct Hread as (Hread & _ & _).
  repeat (split; [done|]). rewrite Hread. cbn [default from_option id].
  by rewrite fresh_slicer_range.
Qed.

(** With [end = 0] the transform has no end: [slice(0, 0)] of a file that
    is not empty has size 0 and reads the whole file. *)
Lemma slice_zero_zero (h : host) this w content contentType :
  files w !! filepath this = Some content →
  let '(sliced, w1) := slice h this (Some 0) (Some 0) contentType w in
  size sliced = 0 ∧ (arrayBuffer sliced w1).1 = Ok content.
Proof.
  intros Hf.
  pose proof (slice_then_arrayBuffer h this w content (Some 0) (Some 0)
                contentType Hf) as Hread.
  rewrite slice_result in *. destruct Hread as (Hread & _ & _).
  split; [done|]. rewrite Hread. cbn [default from_option id].
  by rewrite fresh_slicer_no_end.
Qed.

(** [slice()] on such a file reads the whole file. *)
Lemma slice_without_arguments (h : host) this w content :
  files w !! filepath this = Some content →
  size this = Z.of_nat (length content) →
  let '(sliced, w1) := slice h this None None None w in
  size sliced = size this ∧ (arrayBuffer sliced w1).1 = Ok content.
Proof.
  intros Hf Hsize.
  pose proof (slice_then_arrayBuffer h this w content None None None Hf) as Hread.
  rewrite slice_result in *. destruct Hread as (Hread & _ & _).
  split; [cbn; lia|]. rewrite Hread. cbn [default from_option id]. rewrite Hsize.
  destruct content as [|b content].
  - by rewrite fresh_slicer_no_end.
  - rewrite fresh_slicer_range by (cbn [length]; lia).
    rewrite Nat2Z.id. cbn [Z.to_nat]. by rewrite Nat.sub_0_r, drop_0, firstn_all.
Qed.

(** After its first read, a slice cannot be read again. *)
Lemma sliced_second_read_fails (h : host) this w content start end_ contentType :
  files w !! filepath this = Some content →
  let '(sliced, w1) := slice h this start end_ contentType w in
  let '(first, w2) := arrayBuffer sliced w1 in
  (arrayBuffer sliced w2).1 = Err WriteAfterEnd.
Proof.
  intros Hf. rewrite slice_result.
  erewrite arrayBuffer_sliced_first; [|done|cbn; by rewrite lookup_app_r, Nat.sub_diag|..];
    [|done..].
  rewrite (arrayBuffer_sliced_ended _ _ content (length (slicers w))
             (ended (feed (fresh_slicer (default 0 start) (default (size this) end_))
                       (read_chunks content)).2));
    [done|done| |done|done].
  cbn. rewrite list_lookup_insert_eq; [done|]. rewrite length_app. cbn. lia.
Qed.

(** C3.  A slice taken from a slice is cut from the start of the backing
    file, not from the start of the slice it was taken from: of the file
    [0a 14 1e 28], [slice(2, 4)] reads [1e 28], but [slice()] of that slice
    has size 2 and reads [0a 14]. *)
Theorem slice_of_slice_reads_from_file_start :
  let '(tail, w1) := slice sample_host stored_four (Some 2) (Some 4) None world_four in
  let '(tail_again, w2) := slice sample_host tail None None None w1 in
  size tail = 2
  ∧ (arrayBuffer tail w2).1 = Ok [x1e; x28]
  ∧ size tail_again = 2
  ∧ (arrayBuffer tail_again w2).1 = Ok [x0a; x14].
Proof. vm_compute. done. Qed.

(** C6.  Every read opens the backing file anew, but a sliced file pipes
    each read into the one transform made by [slice]: of the file
    [0a 14 1e 28], the slice [1, 3) reads [14 1e] the first time and fails
    the second time, while the unsliced file reads the same bytes twice. *)
Theorem sliced_file_reads_once :
  let '(sliced, w1) := slice sample_host stored_four (Some 1) (Some 3) None world_four in
  let '(first, w2) := arrayBuffer sliced w1 in
  let '(second, w3) := arrayBuffer sliced w2 in
  let '(third, w4) := arrayBuffer stored_four w3 in
  let '(fourth, w5) := arrayBuffer stored_four w4 in
  first = Ok [x14; x1e]
  ∧ second = Err WriteAfterEnd
  ∧ third = Ok four_bytes
  ∧ fourth = Ok four_bytes
  ∧ trace w5 = replicate 4 (EvOpenRead "/srv/app/uploads/a.bin").
Proof. vm_compute. done. Qed.

(** ** The statements on the sample inputs *)

Lemma write_handle_closed_once_witness :
  choose_filepath sample_host (with_defaults sample_host (uploads_options 10)) 5%nat
    avatar empty_world
  = Some (Some "/srv/app/uploads/pic.png",
          log (EvStat "/srv/app/uploads/pic.png") empty_world)
  ∧ ∃ (w' : world) (written : list chunk) (removed : bool),
      (if removed
       then createFileUploadHandler sample_host (uploads_options 10) 5%nat avatar empty_world
            = Rejected (MeterError "avatar" 10) w'
       else ∃ stored,
            createFileUploadHandler sample_host (uploads_options 10) 5%nat avatar empty_world
            = Resolved (Some stored) w')
      ∧ (removed = true ↔ exceeds 10 (part_data avatar))
      ∧ trace w'
        = trace (log (EvStat "/srv/app/uploads/pic.png") empty_world)
          ++ store_events sample_host "/srv/app/uploads/pic.png" written removed
      ∧ close_count "/srv/app/uploads/pic.png"
          (store_events sample_host "/srv/app/uploads/pic.png" written removed) = 1%nat.
Proof.
  split; [reflexivity|].
  apply (write_handle_closed_once sample_host (uploads_options 10) 5%nat avatar empty_world
           "/srv/app/uploads/pic.png"
           (log (EvStat "/srv/app/uploads/pic.png") empty_world)).
  reflexivity.
Defined.

Lemma skipped_part_touches_nothing_witness :
  createFileUploadHandler sample_host reject_all 5%nat avatar world_four
  = Resolved None world_four.
Proof.
  apply (skipped_part_touches_nothing sample_host reject_all 5%nat avatar world_four).
  left. exists (λ _, false). split; reflexivity.
Defined.

Lemma sample_clock_advances : advances (clock sample_host).
Proof.
  intros i t. exists (i + Z.to_nat t)%nat. split; [lia|]. cbn. lia.
Qed.

(** * Further properties of the upload handler *)

(** ** [defaultFilePathResolver] *)

(** X1.  The default resolver always yields a non-empty name, so a part is
    never skipped for want of a file name; it touches neither the files nor
    the trace; and two calls for the same part give the same name exactly
    when the random source gave the same number. *)
Theorem defaultFilePathResolver_names (h : host) args :
  (∀ w, truthy (defaultFilePathResolver h args w).1 = true
        ∧ files (defaultFilePathResolver h args w).2 = files w
        ∧ trace (defaultFilePathResolver h args w).2 = trace w)
  ∧ (∀ w1 w2,
       (defaultFilePathResolver h args w1).1 = (defaultFilePathResolver h args w2).1
       ↔ entropy h (draws w1) = entropy h (draws w2)).
Proof.
  split.
  - intros w. unfold defaultFilePathResolver, randomUInt32, truthy. cbn [fst snd].
    by rewrite upload_name_nonempty.
  - intros w1 w2. unfold defaultFilePathResolver, randomUInt32. cbn [fst snd]. split.
    + intros [= Heq]. apply (inj (String.app _)) in Heq.
      apply string_app_inv_tail in Heq. by apply (inj pretty) in Heq.
    + by intros ->.
Qed.

(** ** [uniqueFile] *)

Lemma uniqueFile_loop_footprint (h : host) fp fuel :
  ∀ cur w p w',
    uniqueFile_loop h fuel fp (extname h fp) cur w = Some (p, w') →
    ∃ taken,
      trace w' = trace w ++ (EvStat <$> taken ++ [p])
      ∧ Forall (λ q, is_Some (files w !! q)) taken
      ∧ ticks w' = (ticks w + length taken)%nat
      ∧ head (taken ++ [p]) = Some cur.
Proof.
  induction fuel as [|fuel IH]; intros cur w p w' Hrun; [done|].
  destruct (files w !! cur) as [content|] eqn:Hcur.
  - rewrite uniqueFile_loop_taken in Hrun by (by rewrite Hcur).
    apply IH in Hrun as (taken & Htrace & Htaken & Hticks & _).
    exists (cur :: taken). split; [|split; [|split]].
    + rewrite Htrace. cbn. by rewrite <- app_assoc.
    + constructor; [by rewrite Hcur|exact Htaken].
    + rewrite Hticks. cbn. lia.
    + done.
  - rewrite uniqueFile_loop_free in Hrun by done. injection Hrun as <- <-.
    exists []. split; [done|]. split; [constructor|]. split; [cbn; lia|done].
Qed.

(** X2.  A run of [uniqueFile] makes existence probes and nothing else: the
    filesystem calls it adds are [stat] on the path, then on one stamped
    name per clock reading, each found taken, and last on the path it
    returns, which is free.  The files, the stream objects and the random
    source are untouched, and the path comes back unchanged exactly when no
    file existed at it. *)
Theorem uniqueFile_probes_only (h : host) fuel fp w p w' :
  uniqueFile h fuel fp w = Some (p, w') →
  ∃ taken,
    trace w' = trace w ++ (EvStat <$> taken ++ [p])
    ∧ head (taken ++ [p]) = Some fp
    ∧ Forall (λ q, is_Some (files w !! q)) taken
    ∧ files w !! p = None
    ∧ ticks w' = (ticks w + length taken)%nat
    ∧ files w' = files w ∧ slicers w' = slicers w ∧ draws w' = draws w
    ∧ (p = fp ↔ files w !! fp = None).
Proof.
  unfold uniqueFile. intros Hrun.
  destruct (uniqueFile_loop_footprint h fp fuel fp w p w' Hrun)
    as (taken & Htrace & Htaken & Hticks & Hhead).
  destruct (uniqueFile_loop_sound h fuel fp fp w p w' Hrun)
    as (Hfiles & Hslicers & Hdraws & Hfree & _).
  exists taken. repeat (split; [done|]). split.
  - by intros ->.
  - intros Hfp. destruct taken as [|q taken]; cbn in Hhead; [congruence|].
    injection Hhead as ->. apply Forall_cons in Htaken as [[c Hc] _]. congruence.
Qed.

Lemma uniqueFile_loop_stuck (h : host) fp fuel :
  ∀ cur w,
    is_Some (files w !! cur) →
    (∀ k, is_Some (files w !! stamped h fp (clock h (ticks w + k)))) →
    uniqueFile_loop h fuel fp (extname h fp) cur w = None.
Proof.
  induction fuel as [|fuel IH]; intros cur w Hcur Hall; [done|].
  rewrite uniqueFile_loop_taken by done. apply IH.
  - specialize (Hall 0%nat). by rewrite Nat.add_0_r in Hall.
  - intros k. specialize (Hall (S k)).
    change (is_Some (files w !! stamped h fp (clock h (S (ticks w) + k)))).
    by replace (S (ticks w) + k)%nat with (ticks w + S k)%nat by lia.
Qed.

(** Without conflict avoidance the first phase reads no clock, calls
    nothing on the filesystem and needs no fuel. *)
Lemma choose_filepath_off (h : host) opts fuel part w r w0 :
  choose_filepath h (with_defaults h (with_avoidFileConflicts opts false)) fuel part w
  = Some (r, w0) →
  files w0 = files w ∧ trace w0 = trace w ∧ ticks w0 = ticks w
  ∧ slicers w0 = slicers w
  ∧ ∀ fuel',
      choose_filepath h (with_defaults h (with_avoidFileConflicts opts false)) fuel' part w
      = Some (r, w0).
Proof.
  unfold choose_filepath. cbn [with_defaults with_avoidFileConflicts avoidFileConflicts
    directory file filter maxFileSize r_filter r_directory r_file r_avoidFileConflicts].
  intros Hc. repeat case_match; simplify_eq; try done;
    match goal with
    | H : defaultFilePathResolver _ _ _ = _ |- _ =>
      apply (f_equal snd) in H; cbn in H; subst; done
    end.
Qed.

(** With conflict avoidance the first phase computes the same candidate and
    hands it to [uniqueFile]. *)
Lemma choose_filepath_on (h : host) opts fuel0 part w r w0 :
  choose_filepath h (with_defaults h (with_avoidFileConflicts opts false)) fuel0 part w
  = Some (r, w0) →
  ∀ fuel,
    choose_filepath h (with_defaults h (with_avoidFileConflicts opts true)) fuel part w
    = match r with
      | Some cand =>
        match uniqueFile h fuel cand w0 with
        | Some (p, w1) => Some (Some p, w1)
        | None => None
        end
      | None => Some (None, w0)
      end.
Proof.
  unfold choose_filepath. cbn [with_defaults with_avoidFileConflicts avoidFileConflicts
    directory file filter maxFileSize r_filter r_directory r_file r_avoidFileConflicts].
  intros Hc fuel. repeat case_match; simplify_eq; done.
Qed.

(** X3.  The probe loop has no bound of its own: when a file exists at the
    candidate path and at the stamped name of every coming clock reading (a
    clock that stands still and one stamped file are enough), [uniqueFile]
    does not return, whatever the fuel, and neither does the handler with
    conflict avoidance on. *)
Theorem probe_loop_unbounded (h : host) opts part w cand w0 :
  choose_filepath h (with_defaults h (with_avoidFileConflicts opts false)) 0 part w
  = Some (Some cand, w0) →
  is_Some (files w !! cand) →
  (∀ k, is_Some (files w !! stamped h cand (clock h (ticks w + k)))) →
  ∀ fuel,
    uniqueFile h fuel cand w0 = None
    ∧ createFileUploadHandler h (with_avoidFileConflicts opts true) fuel part w
      = OutOfFuel.
Proof.
  intros Hc Hcand Hall fuel.
  destruct (choose_filepath_off h opts 0 part w _ _ Hc) as (Hfiles & _ & Hticks & _).
  assert (uniqueFile h fuel cand w0 = None) as Hstuck.
  { apply uniqueFile_loop_stuck; rewrite Hfiles; [done|].
    intros k. rewrite Hticks. apply Hall. }
  split; [exact Hstuck|]. unfold createFileUploadHandler.
  by rewrite (choose_filepath_on h opts 0 part w _ _ Hc fuel), Hstuck.
Qed.

(** ** The handler with and without conflict avoidance *)

(** What the write phase returns or throws. *)
Lemma store_at_value (h : host) o part p w :
  outcome_value (store_at h o part p w)
  = Some (if exceeds_dec (r_maxFileSize o) (part_data part)
          then inr (MeterError (part_name part) (r_maxFileSize o))
          else inl (Some (new_NodeOnDiskFile h p (total_bytes (part_data part))
                            (part_contentType part) None))).
Proof.
  destruct (exceeds_dec _ _) as [Hex|Hin].
  - destruct (first_crossing _ _ Hex) as (pre & c & post & Hdata & Hpre & Hcross).
    by rewrite (store_at_crossing h o part p w pre c post Hdata Hpre Hcross).
  - by rewrite (store_at_within h o part p w Hin).
Qed.




(** ** What a run of the handler touches *)



(** ** The copy loop *)

(** X9.  Once a chunk has taken the running total over the limit, what
    comes after it in the stream has no part in the run: two parts that
    agree up to and including that chunk end in the same way, in the same
    world. *)
Theorem rest_of_stream_is_irrelevant (h : host) opts fuel part w pre c post1 post2 :
  ¬ exceeds (r_maxFileSize (with_defaults h opts)) pre →
  r_maxFileSize (with_defaults h opts) < total_bytes pre + Z.of_nat (length c) →
  createFileUploadHandler h opts fuel (with_data part (pre ++ c :: post1)) w
  = createFileUploadHandler h opts fuel (with_data part (pre ++ c :: post2)) w.
Proof.
  intros Hpre Hcross. unfold createFileUploadHandler.
  change (choose_filepath h (with_defaults h opts) fuel
            (with_data part (pre ++ c :: post2)) w)
    with (choose_filepath h (with_defaults h opts) fuel
            (with_data part (pre ++ c :: post1)) w).
  destruct (choose_filepath _ _ _ _ _) as [[[p|] w1]|]; [|done..].
  rewrite (store_at_crossing h _ (with_data part (pre ++ c :: post1)) p w1 pre c post1
             eq_refl Hpre Hcross).
  by rewrite (store_at_crossing h _ (with_data part (pre ++ c :: post2)) p w1 pre c post2
                eq_refl Hpre Hcross).
Qed.

(** X10.  With a limit that is not negative, how the bytes are cut into
    chunks does not matter to what the handler returns or throws: two
    streams carrying the same bytes are both stored, with equal handles, or
    both rejected, with the same error. *)
Theorem chunking_does_not_matter (h : host) opts fuel part w data1 data2 :
  0 ≤ r_maxFileSize (with_defaults h opts) →
  concat data1 = concat data2 →
  outcome_value (createFileUploadHandler h opts fuel (with_data part data1) w)
  = outcome_value (createFileUploadHandler h opts fuel (with_data part data2) w).
Proof.
  intros Hlimit Hsame. unfold createFileUploadHandler.
  change (choose_filepath h (with_defaults h opts) fuel (with_data part data2) w)
    with (choose_filepath h (with_defaults h opts) fuel (with_data part data1) w).
  destruct (choose_filepath _ _ _ _ _) as [[[p|] w1]|]; [|done..].
  assert (total_bytes data1 = total_bytes data2) as Htotal.
  { unfold total_bytes. by rewrite Hsame. }
  rewrite !store_at_value. cbn [part_data part_name part_contentType with_data].
  set (o := with_defaults h opts) in *.
  destruct (exceeds_dec (r_maxFileSize o) data1) as [Hex1|Hin1];
    destruct (exceeds_dec (r_maxFileSize o) data2) as [Hex2|Hin2].
  - done.
  - exfalso. apply Hin2. apply exceeds_iff_total; [done|].
    apply exceeds_iff_total in Hex1; [|done]. lia.
  - exfalso. apply Hin1. apply exceeds_iff_total; [done|].
    apply exceeds_iff_total in Hex2; [|done]. lia.
  - by rewrite Htotal.
Qed.

(** X11.  With a limit that is not negative, what the handler writes is
    always a beginning of the stream and never more than the limit: at no
    time does the destination hold more than [maxFileSize] bytes. *)
Theorem written_bytes_within_limit (h : host) opts fuel part w p w1 :
  choose_filepath h (with_defaults h opts) fuel part w = Some (Some p, w1) →
  0 ≤ r_maxFileSize (with_defaults h opts) →
  ∃ w' written removed rest,
    outcome_world (createFileUploadHandler h opts fuel part w) = Some w'
    ∧ trace w' = trace w1 ++ store_events h p written removed
    ∧ part_data part = written ++ rest
    ∧ total_bytes written ≤ r_maxFileSize (with_defaults h opts).
Proof.
  intros Hc Hlimit. unfold createFileUploadHandler. rewrite Hc.
  set (o := with_defaults h opts) in *.
  destruct (exceeds_dec (r_maxFileSize o) (part_data part)) as [Hex|Hin].
  - destruct (first_crossing _ _ Hex) as (pre & c & post & Hdata & Hpre & Hcross).
    destruct (store_at_crossing_world h o part p w1 pre c post Hdata Hpre Hcross)
      as (w' & -> & Htrace & _).
    exists w', pre, true, (c :: post). split; [reflexivity|]. split; [exact Htrace|].
    split; [exact Hdata|].
    destruct (Z.le_gt_cases (total_bytes pre) (r_maxFileSize o)) as [Hle|Hgt]; [done|].
    exfalso. apply Hpre. apply exceeds_iff_total; [done|lia].
  - rewrite (store_at_within h o part p w1 Hin).
    eexists _, (part_data part), false, []. split; [reflexivity|]. split; [reflexivity|].
    split; [by rewrite app_nil_r|].
    destruct (Z.le_gt_cases (total_bytes (part_data part)) (r_maxFileSize o))
      as [Hle|Hgt]; [done|].
    exfalso. apply Hin. apply exceeds_iff_total; [done|lia].
Qed.

(** X12.  The size check runs once per chunk received, so with a negative
    limit a stream of no chunks is accepted, with a handle of size 0, while
    a stream of at least one chunk, be it an empty one, is rejected before
    [write] is called even once. *)
Theorem negative_limit (h : host) opts fuel part w p w1 :
  choose_filepath h (with_defaults h opts) fuel part w = Some (Some p, w1) →
  r_maxFileSize (with_defaults h opts) < 0 →
  ∃ w',
    createFileUploadHandler h opts fuel part w
    = match part_data part with
      | [] => Resolved (Some (new_NodeOnDiskFile h p 0 (part_contentType part) None)) w'
      | _ :: _ =>
        Rejected (MeterError (part_name part) (r_maxFileSize (with_defaults h opts))) w'
      end
    ∧ trace w'
      = trace w1
        ++ store_events h p [] match part_data part with [] => false | _ :: _ => true end.
Proof.
  intros Hc Hneg. unfold createFileUploadHandler. rewrite Hc.
  set (o := with_defaults h opts) in *.
  destruct (part_data part) as [|c rest] eqn:Hdata.
  - rewrite store_at_within.
    + rewrite Hdata. eexists. split; reflexivity.
    + rewrite Hdata. intros (k & Hk & _). simpl in Hk. lia.
  - destruct (store_at_crossing_world h o part p w1 [] c rest Hdata)
      as (w' & -> & Htrace & _).
    + intros (k & Hk & _). simpl in Hk. lia.
    + rewrite total_bytes_nil. lia.
    + by exists w'.
Qed.

(** X13.  A fixed [directory] or [file] that is the empty string makes the
    handler skip every part: it resolves with [undefined] and leaves the
    world as it was. *)
Theorem empty_literal_skips (h : host) opts fuel part w :
  directory opts = Some (PathString "") ∨ file opts = Some (PathString "") →
  createFileUploadHandler h opts fuel part w = Resolved None w.
Proof.
  intros Hempty. unfold createFileUploadHandler, choose_filepath.
  cbn [with_defaults r_filter r_directory r_file r_avoidFileConflicts].
  destruct (match filter opts with
            | Some flt => negb (flt _)
            | None => false
            end); [done|].
  destruct Hempty as [->| ->]; [done|].
  by destruct (negb (truthy _)).
Qed.

(** ** Reading what was stored *)

Lemma read_times_plain this w content n :
  slicer this = None →
  files w !! filepath this = Some content →
  read_times n this w
  = (replicate n (Ok content),
     World (files w) (slicers w) (writers w)
       (trace w ++ replicate n (EvOpenRead (filepath this))) (ticks w) (draws w)).
Proof.
  intros Hs. revert w. induction n as [|n IH]; intros w Hf.
  - cbn. rewrite app_nil_r. by destruct w.
  - cbn [read_times]. rewrite (arrayBuffer_plain this w content Hs Hf).
    rewrite IH by done. cbn. by rewrite <- app_assoc.
Qed.

(** An upload within the limit, when no other stream has work pending:
    the handler resolves, and once the stream has done its work the
    destination holds the streamed bytes. *)
Lemma handler_settled (h : host) opts fuel part w p w1 :
  choose_filepath h (with_defaults h opts) fuel part w = Some (Some p, w1) →
  total_bytes (part_data part) ≤ r_maxFileSize (with_defaults h opts) →
  quiescent w →
  ∃ w',
    createFileUploadHandler h opts fuel part w
    = Resolved (Some (new_NodeOnDiskFile h p (total_bytes (part_data part))
                        (part_contentType part) None)) w'
    ∧ files (settle w') = <[p := concat (part_data part)]> (files w)
    ∧ slicers (settle w') = slicers w1
    ∧ trace (settle w') = trace w'
    ∧ quiescent (settle w').
Proof.
  intros Hc Hle Hquiet. unfold createFileUploadHandler. rewrite Hc.
  pose proof (choose_filepath_files h _ _ _ _ _ _ Hc) as Hfiles.
  pose proof (choose_filepath_writers h _ _ _ _ _ _ Hc) as Hwriters.
  destruct (store_at_settled h (with_defaults h opts) part p w1) as (w' & Hrun & _ & Hset).
  { by apply not_exceeds_of_total. }
  { unfold quiescent. by rewrite Hwriters. }
  exists w'. split; [exact Hrun|]. rewrite Hset. cbn. rewrite Hfiles.
  split; [done|]. split; [done|]. split.
  - rewrite store_at_within in Hrun by (by apply not_exceeds_of_total).
    by injection Hrun as <-.
  - unfold quiescent. cbn. rewrite Hwriters. apply Forall_app. split; [done|].
    by constructor.
Qed.

(** X14.  When no other stream has work pending and the upload is within
    the limit, the handle the handler resolves with can be read any number
    of times once the write stream has done its work: the destination then
    holds the streamed bytes, each of [n] successive calls of [arrayBuffer]
    returns them, each opens the file once, and none changes a file. *)
Theorem stored_file_rereadable (h : host) opts fuel part w p w1 n :
  choose_filepath h (with_defaults h opts) fuel part w = Some (Some p, w1) →
  total_bytes (part_data part) ≤ r_maxFileSize (with_defaults h opts) →
  quiescent w →
  ∃ stored w',
    createFileUploadHandler h opts fuel part w = Resolved (Some stored) w'
    ∧ size stored = Z.of_nat (length (concat (part_data part)))
    ∧ files (settle w') = <[p := concat (part_data part)]> (files w)
    ∧ (read_times n stored (settle w')).1 = replicate n (Ok (concat (part_data part)))
    ∧ files (read_times n stored (settle w')).2 = files (settle w')
    ∧ trace (read_times n stored (settle w')).2 = trace w' ++ replicate n (EvOpenRead p).
Proof.
  intros Hc Hle Hquiet.
  destruct (handler_settled h opts fuel part w p w1 Hc Hle Hquiet)
    as (w' & Hrun & Hfiles & _ & Htrace & _).
  eexists _, w'. split; [exact Hrun|]. split; [reflexivity|]. split; [exact Hfiles|].
  erewrite read_times_plain; [|reflexivity|rewrite Hfiles; apply lookup_insert_eq].
  cbn. by rewrite Htrace.
Qed.

(** X15.  Under the same conditions, a slice of the handle taken with
    [0 <= start < end <= size] has size [end - start], and its first read,
    once the write stream has done its work, returns the bytes of the
    upload from [start] up to [end]; taking the slice itself reads and
    writes nothing. *)
Theorem slice_of_upload (h : host) opts fuel part w p w1 (start end_ : Z) contentType :
  choose_filepath h (with_defaults h opts) fuel part w = Some (Some p, w1) →
  total_bytes (part_data part) ≤ r_maxFileSize (with_defaults h opts) →
  quiescent w →
  0 ≤ start → start < end_ → end_ ≤ total_bytes (part_data part) →
  ∃ stored w',
    createFileUploadHandler h opts fuel part w = Resolved (Some stored) w'
    ∧ let '(sliced, w2) := slice h stored (Some start) (Some end_) contentType (settle w') in
      size sliced = end_ - start
      ∧ files w2 = files (settle w') ∧ trace w2 = trace (settle w')
      ∧ (arrayBuffer sliced w2).1
        = Ok (take (Z.to_nat end_ - Z.to_nat start)
                (drop (Z.to_nat start) (concat (part_data part)))).
Proof.
  intros Hc Hle Hquiet H0 Hse He.
  destruct (handler_settled h opts fuel part w p w1 Hc Hle Hquiet)
    as (w' & Hrun & Hfiles & _).
  eexists _, w'. split; [exact Hrun|].
  pose proof (slice_of_stored_file h
    (new_NodeOnDiskFile h p (total_bytes (part_data part)) (part_contentType part) None)
    (settle w') (concat (part_data part)) start end_ contentType) as Hslice.
  destruct (slice h _ _ _ _ _) as [sliced w2].
  destruct Hslice as (Hsize & _ & Hfiles2 & Htrace2 & Hread);
    [by rewrite Hfiles; apply lookup_insert_eq|done|done|lia|lia|done|done].
Qed.

(** X16.  Every call of [slice] makes a transform of its own: of two
    slices of one file, each with [0 <= start < end], reading the first
    leaves the second readable, and each first read returns its own range
    of the backing file. *)
Theorem slices_are_independent (h : host) this w content (s1 e1 : Z) c1 (s2 e2 : Z) c2 :
  files w !! filepath this = Some content →
  0 ≤ s1 → s1 < e1 → 0 ≤ s2 → s2 < e2 →
  let '(a, wa) := slice h this (Some s1) (Some e1) c1 w in
  let '(b, wb) := slice h this (Some s2) (Some e2) c2 wa in
  let '(read_a, wc) := arrayBuffer a wb in
  read_a = Ok (take (Z.to_nat e1 - Z.to_nat s1) (drop (Z.to_nat s1) content))
  ∧ (arrayBuffer b wc).1
    = Ok (take (Z.to_nat e2 - Z.to_nat s2) (drop (Z.to_nat s2) content)).
Proof.
  intros Hf H1 Hse1 H2 Hse2. rewrite !slice_result.
  erewrite arrayBuffer_sliced_first;
    [|reflexivity
     |cbn; rewrite lookup_app_l by (rewrite length_app; cbn; lia);
      by rewrite lookup_app_r, Nat.sub_diag
     |reflexivity|exact Hf].
  cbn [default from_option id]. rewrite fresh_slicer_range by lia.
  split; [reflexivity|].
  erewrite arrayBuffer_sliced_first;
    [|reflexivity
     |cbn; rewrite list_lookup_insert_ne by (rewrite length_app; cbn; lia);
      rewrite lookup_app_r by (rewrite length_app; cbn; lia);
      rewrite length_app; cbn;
      by replace (length (slicers w) + 1 - (length (slicers w) + 1))%nat with 0%nat by lia
     |reflexivity|exact Hf].
  by rewrite fresh_slicer_range by lia.
Qed.

(** X17.  A read never changes a file and opens the backing file exactly
    once, whether the handle is sliced or not and whether the read succeeds
    or fails; this holds for [arrayBuffer], [stream] and [text] alike. *)
Theorem reads_only_open (h : host) this w :
  (files (arrayBuffer this w).2 = files w
   ∧ trace (arrayBuffer this w).2 = trace w ++ [EvOpenRead (filepath this)])
  ∧ (files (stream this w).2 = files w
     ∧ trace (stream this w).2 = trace w ++ [EvOpenRead (filepath this)])
  ∧ (files (text h this w).2 = files w
     ∧ trace (text h this w).2 = trace w ++ [EvOpenRead (filepath this)]).
Proof.
  assert (files (open_stream this w).2 = files w
          ∧ trace (open_stream this w).2 = trace w ++ [EvOpenRead (filepath this)])
    as Hopen.
  { unfold open_stream, createReadStream, pipe.
    destruct (slicer this) as [ref|]; [|done].
    destruct (files w !! filepath this); [|done]. cbn.
    destruct (slicers w !! ref) as [s|]; [|done]. destruct (sl_ended s); [done|].
    by destruct (feed s _). }
  unfold arrayBuffer, stream, text. destruct (open_stream this w). done.
Qed.

(** X21.  Under the conditions of X14, [slice()] without arguments on the
    handle gives a handle of the same size on the same path, whose first
    read, once the write stream has done its work, returns all the bytes of
    the upload. *)
Theorem slice_without_arguments_of_upload (h : host) opts fuel part w p w1 :
  choose_filepath h (with_defaults h opts) fuel part w = Some (Some p, w1) →
  total_bytes (part_data part) ≤ r_maxFileSize (with_defaults h opts) →
  quiescent w →
  ∃ stored w',
    createFileUploadHandler h opts fuel part w = Resolved (Some stored) w'
    ∧ let '(sliced, w2) := slice h stored None None None (settle w') in
      size sliced = size stored
      ∧ filepath sliced = filepath stored
      ∧ (arrayBuffer sliced w2).1 = Ok (concat (part_data part)).
Proof.
  intros Hc Hle Hquiet.
  destruct (handler_settled h opts fuel part w p w1 Hc Hle Hquiet)
    as (w' & Hrun & Hfiles & _).
  eexists _, w'. split; [exact Hrun|].
  pose proof (slice_without_arguments h
    (new_NodeOnDiskFile h p (total_bytes (part_data part)) (part_contentType part) None)
    (settle w') (concat (part_data part))) as Hslice.
  rewrite slice_result in *.
  destruct Hslice as [Hsize Hread]; [by rewrite Hfiles; apply lookup_insert_eq|done|].
  done.
Qed.

(** ** The partial file of a rejected upload *)

(** X22.  When an upload is rejected for its size and no other stream has
    work pending, what is left at the destination once the write stream has
    done its work depends on whether the stream opens its file before [rm]
    is done: if it opens the file only afterwards, [rm] removed nothing
    that the stream made, and the bytes queued before the crossing chunk
    are at the destination; otherwise no file is there.  No other path is
    touched. *)
Theorem partial_file_depends_on_timing (h : host) opts fuel part w p w1 :
  choose_filepath h (with_defaults h opts) fuel part w = Some (Some p, w1) →
  exceeds (r_maxFileSize (with_defaults h opts)) (part_data part) →
  quiescent w →
  ∃ pre c post w',
    part_data part = pre ++ c :: post
    ∧ ¬ exceeds (r_maxFileSize (with_defaults h opts)) pre
    ∧ r_maxFileSize (with_defaults h opts) < total_bytes pre + Z.of_nat (length c)
    ∧ createFileUploadHandler h opts fuel part w
      = Rejected (MeterError (part_name part) (r_maxFileSize (with_defaults h opts))) w'
    ∧ files (settle w') !! p
      = (if opens_after_rm h (length (writers w)) p w then Some (concat pre) else None)
    ∧ ∀ q, q ≠ p → files (settle w') !! q = files w !! q.
Proof.
  intros Hc Hex Hquiet.
  destruct (first_crossing _ _ Hex) as (pre & c & post & Hdata & Hpre & Hcross).
  pose proof (choose_filepath_files h _ _ _ _ _ _ Hc) as Hfiles.
  pose proof (choose_filepath_writers h _ _ _ _ _ _ Hc) as Hwriters.
  destruct (store_at_crossing_settled h (with_defaults h opts) part p w1 pre c post
              Hdata Hpre Hcross) as (w' & Hrun & Hp & Hother).
  { unfold quiescent. by rewrite Hwriters. }
  exists pre, c, post, w'. split; [done|]. split; [done|]. split; [done|].
  split; [by rewrite (handler_store h opts fuel part w p w1 Hc)|].
  split; [|intros q Hq; by rewrite Hother, Hfiles].
  rewrite Hp. unfold opens_after_rm. by rewrite Hwriters, Hfiles.
Qed.

(** ** Conflict avoidance when the uploads do not overlap *)

(** X23.  With [avoidFileConflicts] on: when a file exists at the candidate
    path, [uniqueFile] probes the names obtained by putting "-" and the
    clock reading before the extension, one clock reading after the other,
    and returns at the first one at which no file exists; that path differs
    from the candidate and, the candidate being a stem followed by its
    extension, it is the stem, "-", the clock reading and the same
    extension.  With a clock that advances, [uniqueFile] returns. *)
Theorem uniqueFile_first_free_stamp (h : host) :
  (∀ fp w k fuel,
     is_Some (files w !! fp) →
     (∀ i, (i < k)%nat → is_Some (files w !! stamped h fp (clock h (ticks w + i)))) →
     files w !! stamped h fp (clock h (ticks w + k)) = None →
     (k + 2 ≤ fuel)%nat →
     ∃ w',
       uniqueFile h fuel fp w = Some (stamped h fp (clock h (ticks w + k)), w')
       ∧ stamped h fp (clock h (ticks w + k)) ≠ fp
       ∧ (∀ stem, fp = stem +:+ extname h fp →
            stamped h fp (clock h (ticks w + k))
            = stem +:+ "-" +:+ pretty (clock h (ticks w + k)) +:+ extname h fp)
       ∧ files w' = files w)
  ∧ (advances (clock h) → ∀ fp w, ∃ fuel p w1, uniqueFile h fuel fp w = Some (p, w1)).
Proof.
  split.
  - intros fp w k fuel Hfp Htaken Hfree Hfuel.
    destruct (uniqueFile_loop_probe h fp k fuel fp w Hfp Htaken Hfree Hfuel)
      as (w' & Hrun & Hfiles).
    exists w'. split; [exact Hrun|]. split; [|split; [|exact Hfiles]].
    + intros Heq. rewrite Heq in Hfree. destruct Hfp as [c Hc]. congruence.
    + intros stem Hstem. by apply stamped_before_extension.
  - intros Hclock fp w. by apply uniqueFile_ends.
Qed.

Section Settled_uploads.
Context (h : host).

Lemma repeat_upload_settled_more_fuel opts fuel fuel' part n w rs w' :
  (fuel ≤ fuel')%nat →
  repeat_upload_settled (createFileUploadHandler h opts) fuel part n w = Resolved rs w' →
  repeat_upload_settled (createFileUploadHandler h opts) fuel' part n w = Resolved rs w'.
Proof.
  intros Hle. revert w rs w'. induction n as [|n IH]; intros w rs w' Hrun; [done|].
  cbn [repeat_upload_settled] in *.
  destruct (createFileUploadHandler h opts fuel part w) as [r w1| |] eqn:Hfirst;
    [|done..].
  rewrite (handler_more_fuel h opts fuel fuel' part w r w1 Hle Hfirst).
  destruct (repeat_upload_settled _ fuel part n (settle w1)) as [rs1 w2| |] eqn:Hrest;
    [|done..].
  by rewrite (IH (settle w1) rs1 w2 Hrest).
Qed.

(** One upload of an accepted part within the limit, with conflict
    avoidance on, a clock that advances and no other stream at work,
    resolves, given enough fuel, and once its stream has done its work the
    bytes are at a path that was free. *)
Lemma handler_stores_fresh opts part w :
  accepted h opts part →
  avoidFileConflicts opts ≠ Some false →
  advances (clock h) →
  total_bytes (part_data part) ≤ r_maxFileSize (with_defaults h opts) →
  quiescent w →
  ∃ fuel stored w',
    createFileUploadHandler h opts fuel part w = Resolved (Some stored) w'
    ∧ files w !! filepath stored = None
    ∧ files (settle w') = <[filepath stored := concat (part_data part)]> (files w)
    ∧ quiescent (settle w').
Proof.
  intros Hacc Havoid Hclock Hle Hquiet.
  assert (r_avoidFileConflicts (with_defaults h opts) = true) as Hon.
  { cbn. by destruct (avoidFileConflicts opts) as [[]|]. }
  destruct (choose_filepath_accepted h opts part w Hacc) as (cand & w0 & Hw0 & Hc).
  destruct (uniqueFile_ends h cand w0 Hclock) as (fuel & p & w1 & Hu).
  specialize (Hc fuel). rewrite Hon, Hu in Hc.
  pose proof (choose_filepath_fresh h _ _ _ _ _ _ Hon Hc) as Hfree.
  destruct (handler_settled h opts fuel part w p w1 Hc Hle Hquiet)
    as (w' & Hrun & Hfiles & _ & _ & Hquiet').
  by exists fuel, (new_NodeOnDiskFile h p (total_bytes (part_data part))
                     (part_contentType part) None), w'.
Qed.

End Settled_uploads.

(** X24.  With [avoidFileConflicts] on, a clock that advances and no other
    stream at work: [n] uploads of the same accepted part within the size
    limit, each one starting after the write stream of the one before it
    has done its work, all resolve, given enough fuel for the probe loops,
    and leave the bytes in [n] new files at [n] different paths; every
    older file stays as it was. *)
Theorem settled_uploads_are_distinct (h : host) opts part n w :
  accepted h opts part →
  avoidFileConflicts opts ≠ Some false →
  advances (clock h) →
  total_bytes (part_data part) ≤ r_maxFileSize (with_defaults h opts) →
  quiescent w →
  ∃ fuel0 stored w',
    (∀ fuel, (fuel0 ≤ fuel)%nat →
       repeat_upload_settled (createFileUploadHandler h opts) fuel part n w
       = Resolved (Some <$> stored) w')
    ∧ length stored = n
    ∧ NoDup (filepath <$> stored)
    ∧ (∀ f, f ∈ stored →
         files w !! filepath f = None
         ∧ files w' !! filepath f = Some (concat (part_data part)))
    ∧ (∀ q content, files w !! q = Some content → files w' !! q = Some content)
    ∧ base.size (files w') = (base.size (files w) + n)%nat.
Proof.
  intros Hacc Havoid Hclock Hle. revert w. induction n as [|n IH]; intros w Hquiet.
  - exists 0%nat, [], w. split; [done|]. split; [done|]. split; [constructor|].
    split; [by intros f Hf%elem_of_nil|]. split; [done|lia].
  - destruct (handler_stores_fresh h opts part w Hacc Havoid Hclock Hle Hquiet)
      as (fuel1 & f0 & w1 & Hrun & Hfree & Hfiles1 & Hquiet1).
    assert (base.size (files (settle w1)) = S (base.size (files w))) as Hsize1.
    { rewrite Hfiles1. by apply map_size_insert_None. }
    destruct (IH (settle w1) Hquiet1)
      as (fuel2 & stored & w' & Hrest & Hlen & Hnodup & Hnew & Hold & Hsize).
    exists (fuel1 `max` fuel2)%nat, (f0 :: stored), w'.
    assert (files (settle w1) !! filepath f0 = Some (concat (part_data part))) as Hf0.
    { rewrite Hfiles1. apply lookup_insert_eq. }
    split; [|split; [|split; [|split; [|split]]]].
    + intros fuel Hfuel. cbn [repeat_upload_settled].
      rewrite (handler_more_fuel h opts fuel1 fuel part w _ _ ltac:(lia) Hrun).
      by rewrite (Hrest fuel ltac:(lia)).
    + cbn. lia.
    + cbn. constructor; [|done].
      intros Hin. apply list_elem_of_fmap in Hin as (f & Heq & Hf).
      destruct (Hnew f Hf) as [Hnone _]. rewrite <- Heq in Hnone. congruence.
    + intros f Hf. apply elem_of_cons in Hf as [->|Hf].
      * split; [done|]. by apply Hold.
      * destruct (Hnew f Hf) as [Hnone Hsome]. split; [|done].
        rewrite Hfiles1 in Hnone.
        destruct (decide (filepath f0 = filepath f)) as [Heq|Hne].
        -- rewrite Heq, lookup_insert_eq in Hnone. done.
        -- by rewrite lookup_insert_ne in Hnone.
    + intros q content Hq. apply Hold. rewrite Hfiles1.
      rewrite lookup_insert_ne; [done|]. intros Heq. rewrite Heq in Hfree. congruence.
    + lia.
Qed.

(** * Properties of the server bundle's build options *)

Lemma foldl_assign_lookup {V} (value : string → V) (l : list string) :
  ∀ (acc : gmap string V) (k : string),
    foldl (λ acc modname, <[modname := value modname]> acc) acc l !! k
    = if bool_decide (k ∈ l) then Some (value k) else acc !! k.
Proof.
  induction l as [|x l IH]; intros acc k; [done|].
  cbn [foldl]. rewrite IH.
  destruct (decide (k ∈ l)) as [Hin|Hnotin].
  - rewrite !bool_decide_true; [done|by right|done].
  - rewrite (bool_decide_false (k ∈ l)) by done.
    destruct (decide (x = k)) as [->|Hne].
    + rewrite lookup_insert_eq. rewrite bool_decide_true; [done|by left].
    + rewrite lookup_insert_ne by done.
      rewrite bool_decide_false; [done|]. by intros [->|?]%elem_of_cons.
Qed.

(** X18.  The build reads the server entry either from a file or from
    standard input, never both and never neither: [entryPoints] is set, to
    the one configured path, exactly when [serverEntryPoint] is a non-empty
    string; otherwise [stdin] carries the generated entry module, resolved
    from the root directory and loaded as "ts". *)
Theorem entry_from_file_or_stdin env ctx refs :
  let built := ServerCompiler.createEsbuildConfig env ctx refs in
  let configured := ServerCompiler.serverEntryPoint (ServerCompiler.config ctx) in
  (ServerCompiler.stdin built = None ↔ is_Some (ServerCompiler.entryPoints built))
  ∧ (∀ e, ServerCompiler.entryPoints built = Some e
          ↔ e = [default "" configured] ∧ ∃ path, configured = Some path ∧ path ≠ "")
  ∧ (ServerCompiler.entryPoints built = None →
     ServerCompiler.stdin built
     = Some (ServerCompiler.MkStdin
               (ServerCompiler.serverBuildTargetEntryModule (ServerCompiler.config ctx))
               (ServerCompiler.rootDirectory (ServerCompiler.config ctx)) "ts")).
Proof.
  unfold ServerCompiler.createEsbuildConfig.
  destruct (ServerCompiler.serverEntryPoint (ServerCompiler.config ctx)) as [path|];
    cbn [truthy].
  - destruct (String.eqb_spec path "") as [->|Hne]; cbn.
    + split; [split; [done|by intros [? ?]]|]. split; [|done].
      intros e. split; [done|]. by intros (_ & path & [= <-] & Hne).
    + split; [split; [by eexists|done]|]. split; [|done].
      intros e. split.
      * intros [= <-]. split; [done|]. by exists path.
      * by intros (-> & _).
  - cbn. split; [split; [done|by intros [? ?]]|]. split; [|done].
    intros e. split; [done|]. by intros (_ & path & [=] & _).
Qed.

(** Case analysis on membership in a list written out in full. *)
Ltac list_cases H :=
  repeat (apply elem_of_cons in H as [->|H]); [..|by apply elem_of_nil in H].

(** A value made by another constructor than those of a list written out
    in full is not in the list. *)
Ltac not_listed H :=
  repeat (apply elem_of_cons in H as [H|H]; [discriminate H|]);
  by apply elem_of_nil in H.

(** The plugin list: the polyfill plugin, when enabled, in front of the
    fifteen plugins that are always there. *)
Lemma plugins_of_config env ctx refs :
  ServerCompiler.plugins (ServerCompiler.createEsbuildConfig env ctx refs)
  = (if ServerCompiler.polyfill_enabled
          (ServerCompiler.serverNodeBuiltinsPolyfill (ServerCompiler.config ctx))
     then [ServerCompiler.nodeModulesPolyfillPlugin
             match ServerCompiler.serverNodeBuiltinsPolyfill (ServerCompiler.config ctx) with
             | Some (ServerCompiler.PolyfillModules modules) => modules
             | _ => ServerCompiler.defaultPolyfillModules env
             end]
     else [])
    ++ [ServerCompiler.deprecatedRemixPackagePlugin ctx;
        ServerCompiler.cssBundlePlugin refs;
        ServerCompiler.cssModulesPlugin ctx false;
        ServerCompiler.vanillaExtractPlugin ctx false;
        ServerCompiler.cssSideEffectImportsPlugin ctx;
        ServerCompiler.cssFilePlugin ctx;
        ServerCompiler.absoluteCssUrlsPlugin;
        ServerCompiler.externalPlugin "^https?:\/\/" false;
        ServerCompiler.mdxPlugin ctx;
        ServerCompiler.emptyModulesPlugin ctx "\.client(\.[jt]sx?)?$";
        ServerCompiler.serverRouteModulesPlugin ctx;
        ServerCompiler.serverEntryModulePlugin ctx;
        ServerCompiler.serverAssetsManifestPlugin refs;
        ServerCompiler.serverBareModulesPlugin ctx;
        ServerCompiler.externalPlugin "^node:.*" false].
Proof.
  unfold ServerCompiler.createEsbuildConfig.
  destruct (truthy _); cbn [ServerCompiler.plugins];
    by destruct (ServerCompiler.polyfill_enabled _).
Qed.

(** X19.  With [serverNodeBuiltinsPolyfill: true] the polyfill plugin is
    put before all other plugins and its [modules] table has an entry for
    every builtin module and for nothing else.  A builtin named in the
    list of empty modules is set to "empty" even when it is also listed as
    unimplemented; the modules switched off are the unimplemented ones
    outside that list; every other builtin is polyfilled. *)
Theorem default_polyfill_table env ctx refs :
  ServerCompiler.serverNodeBuiltinsPolyfill (ServerCompiler.config ctx)
  = Some (ServerCompiler.PolyfillFlag true) →
  ∃ table rest,
    ServerCompiler.plugins (ServerCompiler.createEsbuildConfig env ctx refs)
    = ServerCompiler.nodeModulesPolyfillPlugin table :: rest
    ∧ (∀ k, is_Some (table !! k) ↔ k ∈ ServerCompiler.builtinModules env)
    ∧ (∀ k, table !! k = Some ServerCompiler.EmptyModule
            ↔ k ∈ ServerCompiler.builtinModules env
              ∧ k ∈ ["fs"; "crypto"; "dns"; "dgram"; "cluster"; "repl"; "tls"])
    ∧ (∀ k, table !! k = Some (ServerCompiler.Polyfill false)
            ↔ k ∈ ServerCompiler.builtinModules env
              ∧ k ∈ ["async_hooks"; "child_process"; "dns/promises"; "http2"; "net";
                     "readline"; "v8"]).
Proof.
  intros Hflag. rewrite plugins_of_config, Hflag.
  cbn [ServerCompiler.polyfill_enabled app].
  eexists _, _. split; [reflexivity|].
  unfold ServerCompiler.defaultPolyfillModules.
  split; [|split]; intros k;
    rewrite (foldl_assign_lookup
      (λ modname,
         if ServerCompiler.includes ServerCompiler.empty modname
         then ServerCompiler.EmptyModule
         else ServerCompiler.Polyfill
                (negb (ServerCompiler.includes ServerCompiler.unimplemented modname))));
    rewrite lookup_empty; case_bool_decide as Hin.
  - split; [done|by eexists].
  - split; [by intros [? ?]|done].
  - unfold ServerCompiler.includes, ServerCompiler.empty.
    case_bool_decide as Hempty; [naive_solver|].
    split; [done|]. intros [_ Hk]. done.
  - split; [done|]. by intros [? _].
  - unfold ServerCompiler.includes, ServerCompiler.empty, ServerCompiler.unimplemented.
    case_bool_decide as Hempty.
    + split; [done|]. intros [_ Hk]. exfalso. revert Hempty.
      list_cases Hk; compute_done.
    + case_bool_decide as Hun; cbn [negb].
      * split; [intros _|done]. split; [done|].
        list_cases Hun; first [compute_done|exfalso; apply Hempty; compute_done].
      * split; [done|]. intros [_ Hk]. exfalso. apply Hun.
        list_cases Hk; compute_done.
  - split; [done|]. by intros [? _].
Qed.

(** X20.  The polyfill plugin is in the list exactly when
    [serverNodeBuiltinsPolyfill] is [true] or an object; it then is the
    first plugin and the only one of its kind, and for an object it is
    handed the [modules] of that object and nothing made up here. *)
Theorem polyfill_plugin_placement env ctx refs :
  let built := ServerCompiler.createEsbuildConfig env ctx refs in
  let setting := ServerCompiler.serverNodeBuiltinsPolyfill (ServerCompiler.config ctx) in
  ((∃ table, ServerCompiler.nodeModulesPolyfillPlugin table ∈ ServerCompiler.plugins built)
   ↔ setting = Some (ServerCompiler.PolyfillFlag true)
     ∨ ∃ modules, setting = Some (ServerCompiler.PolyfillModules modules))
  ∧ (∀ table i,
       ServerCompiler.plugins built !! i = Some (ServerCompiler.nodeModulesPolyfillPlugin table)
       → i = 0%nat)
  ∧ (∀ modules,
       setting = Some (ServerCompiler.PolyfillModules modules) →
       head (ServerCompiler.plugins built)
       = Some (ServerCompiler.nodeModulesPolyfillPlugin modules)).
Proof.
  intros built setting. subst built. rewrite plugins_of_config. fold setting.
  split; [|split].
  - split.
    + intros (table & Hin).
      destruct setting as [[[]|modules]|]; cbn in Hin;
        [by left| |by right; eexists|]; exfalso; not_listed Hin.
    + intros [->|(modules & ->)]; cbn; eexists; by left.
  - intros table i Hi. destruct i as [|i]; [done|]. exfalso.
    destruct setting as [[[]|modules]|]; cbn in Hi;
      apply list_elem_of_lookup_2 in Hi; not_listed Hi.
  - by intros modules ->.
Qed.
(** * The further properties on the sample inputs *)

Lemma uniqueFile_probes_only_witness :
  let fp := "/srv/app/uploads/pic.png" in
  let p := "/srv/app/uploads/pic-1700000000000.png" in
  let w' := log (EvStat p) (getTime sample_host (log (EvStat fp) world_pic)).2 in
  uniqueFile sample_host 2 fp world_pic = Some (p, w')
  ∧ ∃ taken,
      trace w' = trace world_pic ++ (EvStat <$> taken ++ [p])
      ∧ head (taken ++ [p]) = Some fp
      ∧ Forall (λ q, is_Some (files world_pic !! q)) taken
      ∧ files world_pic !! p = None
      ∧ ticks w' = (ticks world_pic + length taken)%nat
      ∧ files w' = files world_pic ∧ slicers w' = slicers world_pic
      ∧ draws w' = draws world_pic
      ∧ (p = fp ↔ files world_pic !! fp = None).
Proof.
  intros fp p w'. split; [reflexivity|].
  apply (uniqueFile_probes_only sample_host 2 fp world_pic p w'). reflexivity.
Defined.

Lemma probe_loop_unbounded_witness :
  uniqueFile frozen_host 1000 "/srv/app/uploads/pic.png" world_stuck = None
  ∧ createFileUploadHandler frozen_host
      (with_avoidFileConflicts (uploads_options 100) true) 1000%nat avatar world_stuck
    = OutOfFuel.
Proof.
  apply (probe_loop_unbounded frozen_host (uploads_options 100) avatar world_stuck
           "/srv/app/uploads/pic.png" world_stuck).
  - reflexivity.
  - by eexists.
  - intros k. by eexists.
Defined.


(** Under a limit of ten bytes the third chunk of "avatar" crosses the
    limit; what follows it makes no difference. *)
Lemma rest_of_stream_is_irrelevant_witness :
  createFileUploadHandler sample_host (uploads_options 10) 5%nat
    (with_data avatar
       ([[x01; x02; x03; x04; x05]; [x06; x07; x08; x09; x0a]] ++ [x0b; x0c] :: []))
    empty_world
  = createFileUploadHandler sample_host (uploads_options 10) 5%nat
      (with_data avatar
         ([[x01; x02; x03; x04; x05]; [x06; x07; x08; x09; x0a]] ++ [x0b; x0c]
          :: [[x0d]; [x0e; x0f]]))
      empty_world.
Proof.
  apply (rest_of_stream_is_irrelevant sample_host (uploads_options 10) 5 avatar
           empty_world [[x01; x02; x03; x04; x05]; [x06; x07; x08; x09; x0a]]
           [x0b; x0c] [] [[x0d]; [x0e; x0f]]).
  - apply not_exceeds_of_total. vm_compute. discriminate.
  - vm_compute. reflexivity.
Defined.

(** The twelve bytes of "avatar" in one chunk and in twelve. *)
Lemma chunking_does_not_matter_witness :
  let whole := [concat (part_data avatar)] in
  let single := (λ b, [b]) <$> concat (part_data avatar) in
  outcome_value
    (createFileUploadHandler sample_host (uploads_options 10) 5%nat
       (with_data avatar whole) empty_world)
  = outcome_value
      (createFileUploadHandler sample_host (uploads_options 10) 5%nat
         (with_data avatar single) empty_world).
Proof.
  intros whole single.
  apply (chunking_does_not_matter sample_host (uploads_options 10) 5 avatar empty_world
           whole single).
  - vm_compute. discriminate.
  - reflexivity.
Defined.

Lemma written_bytes_within_limit_witness :
  ∃ w' written removed rest,
    outcome_world
      (createFileUploadHandler sample_host (uploads_options 10) 5%nat avatar empty_world)
    = Some w'
    ∧ trace w'
      = trace (log (EvStat "/srv/app/uploads/pic.png") empty_world)
        ++ store_events sample_host "/srv/app/uploads/pic.png" written removed
    ∧ part_data avatar = written ++ rest
    ∧ total_bytes written ≤ r_maxFileSize (with_defaults sample_host (uploads_options 10)).
Proof.
  apply (written_bytes_within_limit sample_host (uploads_options 10) 5 avatar empty_world
           "/srv/app/uploads/pic.png"
           (log (EvStat "/srv/app/uploads/pic.png") empty_world)).
  - reflexivity.
  - vm_compute. discriminate.
Defined.

(** A limit of minus one and a stream without chunks. *)
Lemma negative_limit_witness :
  ∃ w',
    createFileUploadHandler sample_host (uploads_options (-1)) 5%nat avatar_empty
      empty_world
    = Resolved
        (Some (new_NodeOnDiskFile sample_host "/srv/app/uploads/pic.png" 0 "image/png"
                 None)) w'
    ∧ trace w'
      = trace (log (EvStat "/srv/app/uploads/pic.png") empty_world)
        ++ store_events sample_host "/srv/app/uploads/pic.png" [] false.
Proof.
  apply (negative_limit sample_host (uploads_options (-1)) 5 avatar_empty empty_world
           "/srv/app/uploads/pic.png"
           (log (EvStat "/srv/app/uploads/pic.png") empty_world)).
  - reflexivity.
  - vm_compute. reflexivity.
Defined.

Lemma empty_literal_skips_witness :
  createFileUploadHandler sample_host empty_directory_options 5%nat avatar world_pic
  = Resolved None world_pic.
Proof.
  apply (empty_literal_skips sample_host empty_directory_options 5 avatar world_pic).
  by left.
Defined.

Lemma stored_file_rereadable_witness :
  ∃ stored w',
    createFileUploadHandler sample_host (uploads_options 100) 5%nat avatar empty_world
    = Resolved (Some stored) w'
    ∧ size stored = Z.of_nat (length (concat (part_data avatar)))
    ∧ files (settle w')
      = <["/srv/app/uploads/pic.png" := concat (part_data avatar)]> (files empty_world)
    ∧ (read_times 3 stored (settle w')).1 = replicate 3 (Ok (concat (part_data avatar)))
    ∧ files (read_times 3 stored (settle w')).2 = files (settle w')
    ∧ trace (read_times 3 stored (settle w')).2
      = trace w' ++ replicate 3 (EvOpenRead "/srv/app/uploads/pic.png").
Proof.
  apply (stored_file_rereadable sample_host (uploads_options 100) 5 avatar empty_world
           "/srv/app/uploads/pic.png"
           (log (EvStat "/srv/app/uploads/pic.png") empty_world) 3).
  - reflexivity.
  - vm_compute. discriminate.
  - constructor.
Defined.

(** Bytes 3 up to 7 of "avatar". *)
Lemma slice_of_upload_witness :
  ∃ stored w',
    createFileUploadHandler sample_host (uploads_options 100) 5%nat avatar empty_world
    = Resolved (Some stored) w'
    ∧ let '(sliced, w2) := slice sample_host stored (Some 3) (Some 7) None (settle w') in
      size sliced = 7 - 3
      ∧ files w2 = files (settle w') ∧ trace w2 = trace (settle w')
      ∧ (arrayBuffer sliced w2).1
        = Ok (take (Z.to_nat 7 - Z.to_nat 3)
                (drop (Z.to_nat 3) (concat (part_data avatar)))).
Proof.
  apply (slice_of_upload sample_host (uploads_options 100) 5 avatar empty_world
           "/srv/app/uploads/pic.png"
           (log (EvStat "/srv/app/uploads/pic.png") empty_world) 3 7 None).
  - reflexivity.
  - vm_compute. discriminate.
  - constructor.
  - lia.
  - lia.
  - vm_compute. discriminate.
Defined.

Lemma slices_are_independent_witness :
  let '(a, wa) := slice sample_host stored_four (Some 0) (Some 2) None world_four in
  let '(b, wb) := slice sample_host stored_four (Some 2) (Some 4) None wa in
  let '(read_a, wc) := arrayBuffer a wb in
  read_a = Ok (take (Z.to_nat 2 - Z.to_nat 0) (drop (Z.to_nat 0) four_bytes))
  ∧ (arrayBuffer b wc).1
    = Ok (take (Z.to_nat 4 - Z.to_nat 2) (drop (Z.to_nat 2) four_bytes)).
Proof.
  apply (slices_are_independent sample_host stored_four world_four four_bytes
           0 2 None 2 4 None); [reflexivity|lia..].
Defined.

Lemma default_polyfill_table_witness :
  ∃ table rest,
    ServerCompiler.plugins
      (ServerCompiler.createEsbuildConfig sample_env sample_context sample_refs)
    = ServerCompiler.nodeModulesPolyfillPlugin table :: rest
    ∧ (∀ k, is_Some (table !! k) ↔ k ∈ ServerCompiler.builtinModules sample_env)
    ∧ (∀ k, table !! k = Some ServerCompiler.EmptyModule
            ↔ k ∈ ServerCompiler.builtinModules sample_env
              ∧ k ∈ ["fs"; "crypto"; "dns"; "dgram"; "cluster"; "repl"; "tls"])
    ∧ (∀ k, table !! k = Some (ServerCompiler.Polyfill false)
            ↔ k ∈ ServerCompiler.builtinModules sample_env
              ∧ k ∈ ["async_hooks"; "child_process"; "dns/promises"; "http2"; "net";
                     "readline"; "v8"]).
Proof.
  apply (default_polyfill_table sample_env sample_context sample_refs). reflexivity.
Defined.

Lemma slice_without_arguments_of_upload_witness :
  ∃ stored w',
    createFileUploadHandler sample_host (uploads_options 100) 5%nat avatar empty_world
    = Resolved (Some stored) w'
    ∧ let '(sliced, w2) := slice sample_host stored None None None (settle w') in
      size sliced = size stored
      ∧ filepath sliced = filepath stored
      ∧ (arrayBuffer sliced w2).1 = Ok (concat (part_data avatar)).
Proof.
  apply (slice_without_arguments_of_upload sample_host (uploads_options 100) 5 avatar
           empty_world "/srv/app/uploads/pic.png"
           (log (EvStat "/srv/app/uploads/pic.png") empty_world)).
  - reflexivity.
  - vm_compute. discriminate.
  - constructor.
Defined.

(** "avatar" under a limit of ten bytes: handed over from memory, arriving
    slowly, and handed over from memory onto an older file. *)
Lemma partial_file_depends_on_timing_witness :
  (∃ pre c post w',
     part_data avatar = pre ++ c :: post
     ∧ ¬ exceeds 10 pre
     ∧ 10 < total_bytes pre + Z.of_nat (length c)
     ∧ createFileUploadHandler sample_host (uploads_options 10) 5%nat avatar empty_world
       = Rejected (MeterError "avatar" 10) w'
     ∧ files (settle w') !! "/srv/app/uploads/pic.png" = Some (concat pre)
     ∧ ∀ q, q ≠ "/srv/app/uploads/pic.png" →
            files (settle w') !! q = files empty_world !! q)
  ∧ (∃ pre c post w',
       part_data avatar = pre ++ c :: post
       ∧ ¬ exceeds 10 pre
       ∧ 10 < total_bytes pre + Z.of_nat (length c)
       ∧ createFileUploadHandler slow_upload_host (uploads_options 10) 5%nat avatar
           empty_world
         = Rejected (MeterError "avatar" 10) w'
       ∧ files (settle w') !! "/srv/app/uploads/pic.png" = None
       ∧ ∀ q, q ≠ "/srv/app/uploads/pic.png" →
              files (settle w') !! q = files empty_world !! q)
  ∧ (∃ pre c post w',
       part_data avatar = pre ++ c :: post
       ∧ ¬ exceeds 10 pre
       ∧ 10 < total_bytes pre + Z.of_nat (length c)
       ∧ createFileUploadHandler sample_host
           (with_avoidFileConflicts (uploads_options 10) false) 5%nat avatar world_pic
         = Rejected (MeterError "avatar" 10) w'
       ∧ files (settle w') !! "/srv/app/uploads/pic.png" = None
       ∧ ∀ q, q ≠ "/srv/app/uploads/pic.png" →
              files (settle w') !! q = files world_pic !! q).
Proof.
  assert (exceeds 10 (part_data avatar)) as Hex.
  { exists 2%nat. split; [simpl; lia|vm_compute; reflexivity]. }
  split; [|split].
  - apply (partial_file_depends_on_timing sample_host (uploads_options 10) 5 avatar
             empty_world "/srv/app/uploads/pic.png"
             (log (EvStat "/srv/app/uploads/pic.png") empty_world));
      [reflexivity|exact Hex|constructor].
  - apply (partial_file_depends_on_timing slow_upload_host (uploads_options 10) 5 avatar
             empty_world "/srv/app/uploads/pic.png"
             (log (EvStat "/srv/app/uploads/pic.png") empty_world));
      [reflexivity|exact Hex|constructor].
  - apply (partial_file_depends_on_timing sample_host
             (with_avoidFileConflicts (uploads_options 10) false) 5 avatar
             world_pic "/srv/app/uploads/pic.png" world_pic);
      [reflexivity|exact Hex|constructor].
Defined.

(** A taken candidate, and the clock of the sample host. *)
Lemma uniqueFile_first_free_stamp_witness :
  (∃ w',
     uniqueFile sample_host 2 "/srv/app/uploads/pic.png" world_pic
     = Some ("/srv/app/uploads/pic-1700000000000.png", w')
     ∧ "/srv/app/uploads/pic-1700000000000.png" ≠ "/srv/app/uploads/pic.png"
     ∧ (∀ stem,
          "/srv/app/uploads/pic.png" = stem +:+ extname sample_host "/srv/app/uploads/pic.png" →
          "/srv/app/uploads/pic-1700000000000.png"
          = stem +:+ "-" +:+ pretty 1700000000000 +:+ extname sample_host "/srv/app/uploads/pic.png")
     ∧ files w' = files world_pic)
  ∧ ∃ fuel p w1, uniqueFile sample_host fuel "/srv/app/uploads/pic.png" world_pic
                 = Some (p, w1).
Proof.
  destruct (uniqueFile_first_free_stamp sample_host) as (Hprobe & Hends). split.
  - apply (Hprobe "/srv/app/uploads/pic.png" world_pic 0%nat 2%nat).
    + by eexists.
    + intros i Hi. lia.
    + reflexivity.
    + lia.
  - apply (Hends sample_clock_advances).
Defined.

(** Three uploads of "avatar" to ./uploads/pic.png, each one after the
    stream of the one before has done its work. *)
Lemma settled_uploads_are_distinct_witness :
  ∃ fuel0 stored w',
    (∀ fuel, (fuel0 ≤ fuel)%nat →
       repeat_upload_settled (createFileUploadHandler sample_host (uploads_options 100))
         fuel avatar 3 empty_world
       = Resolved (Some <$> stored) w')
    ∧ length stored = 3%nat
    ∧ NoDup (filepath <$> stored)
    ∧ (∀ f, f ∈ stored →
         files empty_world !! filepath f = None
         ∧ files w' !! filepath f = Some (concat (part_data avatar)))
    ∧ (∀ q content,
         files empty_world !! q = Some content → files w' !! q = Some content)
    ∧ base.size (files w') = (base.size (files empty_world) + 3)%nat.
Proof.
  apply (settled_uploads_are_distinct sample_host (uploads_options 100) avatar 3%nat
           empty_world).
  - split; [|split].
    + intros flt Hflt. discriminate Hflt.
    + reflexivity.
    + intros src Hsrc. injection Hsrc as <-. reflexivity.
  - discriminate.
  - exact sample_clock_advances.
  - vm_compute. discriminate.
  - constructor.
Defined.
